(** * check_parens: delimiter balance checker for Clojure sources

    A shallow embedding of [scripts/check_parens.py] and the proofs of its
    specification.

    Conventions of the embedding.
    - A Python [str] is a [string]; a character is an [ascii]. The source
      compares characters with ASCII constants only.
    - A position [idx] inside [text] is represented by the suffix
      [text[idx:]]: a function that the source writes as taking [(text, idx)]
      and returning a new index takes the suffix and returns the new suffix.
    - Python lists ([stack], [errors]) are lists in the same order:
      [append] adds at the end, [pop] removes the last element.
    - Every message the source formats with an f-string is recorded as a
      [Diagnostic] holding the interpolated values; [render] is the
      f-string. *)

From Stdlib Require Import Strings.String Strings.Ascii Lists.List Bool.Bool.
From Stdlib Require Import Arith.PeanoNat Lia Numbers.DecimalString.
From Stdlib Require Import Sorting.Permutation Sorting.Sorted.
From Stdlib Require Import Structures.OrderedTypeEx.
From Equations Require Import Equations.
Import ListNotations.

Local Open Scope string_scope.
Local Open Scope list_scope.

(** ** Module constants *)

Definition newline : ascii := "010"%char.
Definition tab : ascii := "009"%char.
Definition carriage_return : ascii := "013"%char.
Definition double_quote : ascii := "034"%char.
Definition backslash : ascii := "092"%char.
Definition semicolon : ascii := ";"%char.

(** [OPENING = {"(": ")", "[": "]", "{": "}"}] *)
Definition OPENING (ch : ascii) : option ascii :=
  if (ch =? "(")%char then Some ")"%char
  else if (ch =? "[")%char then Some "]"%char
  else if (ch =? "{")%char then Some "}"%char
  else None.

(** [CLOSING = {v: k for k, v in OPENING.items()}] *)
Definition CLOSING (ch : ascii) : option ascii :=
  if (ch =? ")")%char then Some "("%char
  else if (ch =? "]")%char then Some "["%char
  else if (ch =? "}")%char then Some "{"%char
  else None.

(** [ch in d] for a dict [d]. *)
Definition is_key (d : ascii -> option ascii) (ch : ascii) : bool :=
  match d ch with Some _ => true | None => false end.

(** [SIGNIFICANT_EXTENSIONS = {".clj", ".cljc", ".cljs"}], as the list of its
    elements; a Python set has no order of its own. *)
Definition SIGNIFICANT_EXTENSIONS : list string := [".clj"; ".cljc"; ".cljs"].

(** [WHITESPACE = set(" \t\r\n,")] *)
Definition WHITESPACE (ch : ascii) : bool :=
  (ch =? " ")%char || (ch =? tab)%char || (ch =? carriage_return)%char
  || (ch =? newline)%char || (ch =? ",")%char.

Definition DEF_LIKE : list string :=
  ["def"; "defonce"; "defn"; "defmacro"; "defmethod"; "defmulti";
   "defrecord"; "defprotocol"; "deftype"; "definterface"].

(** [symbol in DEF_LIKE] *)
Definition in_DEF_LIKE (symbol : string) : bool :=
  existsb (String.eqb symbol) DEF_LIKE.

(** [ch in S] for the string [S] of the six delimiters and the double
    quote, as [read_symbol] tests it. *)
Definition delimiter_or_quote (ch : ascii) : bool :=
  (ch =? "(")%char || (ch =? ")")%char || (ch =? "[")%char
  || (ch =? "]")%char || (ch =? "{")%char || (ch =? "}")%char
  || (ch =? double_quote)%char.

(** ** Data *)

Record ParenEntry : Type := mkParenEntry {
  char : ascii;
  line : nat;
  col : nat;
  form : string
}.

(** The three messages [check_file] appends to [errors], with the values
    interpolated in each. *)
Inductive Diagnostic : Type :=
| UnexpectedClosing (at_line at_col : nat) (ch : ascii)
| Mismatched (at_line at_col : nat) (ch expected_open : ascii)
    (entry : ParenEntry)
| Unclosed (entry : ParenEntry).

(** [str(n)] for a non-negative [int]. *)
Definition str_of_nat (n : nat) : string :=
  NilEmpty.string_of_uint (Nat.to_uint n).

Definition str_of_char (c : ascii) : string := String c EmptyString.

(** The f-strings of [check_file]. *)
Definition render (path : string) (d : Diagnostic) : string :=
  (match d with
  | UnexpectedClosing l c ch =>
      path ++ ":" ++ str_of_nat l ++ ":" ++ str_of_nat c
        ++ " unexpected '" ++ str_of_char ch ++ "' (outside any open form)"
  | Mismatched l c ch expected_open entry =>
      path ++ ":" ++ str_of_nat l ++ ":" ++ str_of_nat c
        ++ " closing '" ++ str_of_char ch ++ "' expected to match '"
        ++ str_of_char expected_open ++ "' but last open was '"
        ++ str_of_char (char entry) ++ "' from " ++ form entry
        ++ " (line " ++ str_of_nat (line entry) ++ ", col "
        ++ str_of_nat (col entry) ++ ")"
  | Unclosed entry =>
      path ++ ":" ++ str_of_nat (line entry) ++ ":" ++ str_of_nat (col entry)
        ++ " open '" ++ str_of_char (char entry)
        ++ "' was never closed (inside " ++ form entry ++ ")"
  end)%string.

(** ** The Form Namer *)

(** [skip_comment(text, idx)]: advance to the next newline (not past it) or
    to the end of the text. *)
Fixpoint skip_comment (s : string) : string :=
  match s with
  | EmptyString => s
  | String ch rest => if (ch =? newline)%char then s else skip_comment rest
  end.

Lemma skip_comment_length (s : string) :
  String.length (skip_comment s) <= String.length s.
Proof.
  induction s as [|ch rest IH]; simpl; [lia|].
  destruct (ch =? newline)%char; simpl; lia.
Qed.

(** Case analysis on a test that keeps the equation of the branch taken. *)
Definition inspect {A : Type} (x : A) : { y : A | x = y } :=
  exist _ x eq_refl.

(** [skip_space_and_comments(text, idx)]: the loop terminates because every
    iteration moves [idx] forward. *)
Equations? skip_space_and_comments (s : string) : string
  by wf (String.length s) lt :=
skip_space_and_comments EmptyString := EmptyString;
skip_space_and_comments (String ch rest) with WHITESPACE ch := {
  | true := skip_space_and_comments rest
  | false with inspect (ch =? semicolon)%char := {
    | exist _ true is_semi :=
        skip_space_and_comments (skip_comment (String ch rest))
    | exist _ false _ := String ch rest } }.
Proof.
  apply Ascii.eqb_eq in is_semi. subst ch.
  change (String.length (skip_comment rest) < S (String.length rest)).
  pose proof (skip_comment_length rest). lia.
Qed.

(** The inner loop of [read_symbol]: the characters from [start] up to the
    first whitespace, delimiter, double quote or semicolon, and the suffix
    that begins there. *)
Fixpoint read_token (s : string) : string * string :=
  match s with
  | EmptyString => (EmptyString, s)
  | String ch rest =>
      if WHITESPACE ch || delimiter_or_quote ch then (EmptyString, s)
      else if (ch =? semicolon)%char then (EmptyString, s)
      else let (tok, after) := read_token rest in (String ch tok, after)
  end.

(** [read_symbol(text, idx)] *)
Definition read_symbol (s : string) : option string * string :=
  let s := skip_space_and_comments s in
  match s with
  | EmptyString => (None, s)
  | String ch _ =>
      if delimiter_or_quote ch then (None, s)
      else let (tok, after) := read_token s in (Some tok, after)
  end.

(** Truth value of an [Optional[str]]: [None] and the empty string are
    false. *)
Definition truthy (o : option string) : bool :=
  match o with
  | None => false
  | Some EmptyString => false
  | Some (String _ _) => true
  end.

Definition str_of_opt (o : option string) : string :=
  match o with Some s => s | None => "None" end.

(** [describe_top_level_form(text, idx, line)] *)
Definition describe_top_level_form (s : string) (line : nat) : string :=
  let (symbol, after_symbol) := read_symbol s in
  if negb (truthy symbol)
  then ("form starting line " ++ str_of_nat line)%string
  else
    let fallback :=
      (str_of_opt symbol ++ " form line " ++ str_of_nat line)%string in
    if in_DEF_LIKE (str_of_opt symbol) || (str_of_opt symbol =? "ns")%string
    then
      let (name, _) := read_symbol after_symbol in
      if truthy name
      then (str_of_opt symbol ++ " " ++ str_of_opt name)%string
      else fallback
    else fallback.

(** ** The scanner *)

(** The local variables of [check_file]'s loop; [idx] is the suffix still to
    be read. *)
Record ScanState : Type := mkScanState {
  stack : list ParenEntry;
  errors : list Diagnostic;
  cur_line : nat;
  cur_col : nat;
  current_form : string;
  in_string : bool;
  escape : bool;
  in_comment : bool
}.

Definition initial_state : ScanState :=
  mkScanState [] [] 1 0 "top-level" false false false.

(** [stack.pop()] on a non-empty list: the list without its last element,
    and that element; [None] for the empty list, a case the source tests
    before it pops. *)
Definition pop {A : Type} (l : list A) : option (list A * A) :=
  match rev l with
  | [] => None
  | x :: r => Some (rev r, x)
  end.

(** [not stack], the emptiness test of the source. *)
Definition is_empty {A : Type} (l : list A) : bool :=
  match l with [] => true | _ :: _ => false end.

(** One iteration of the [while] loop on the character [ch = text[idx]];
    [rest] is [text[idx+1:]]. *)
Definition step (st : ScanState) (ch : ascii) (rest : string) : ScanState :=
  let '(mkScanState stack errors line col current_form
                    in_string escape in_comment) := st in
  if (ch =? newline)%char then
    mkScanState stack errors (line + 1) 0 current_form in_string escape false
  else
    let col := col + 1 in
    if in_comment then
      mkScanState stack errors line col current_form
                  in_string escape in_comment
    else if in_string then
      if escape then
        mkScanState stack errors line col current_form in_string false
                    in_comment
      else if (ch =? backslash)%char then
        mkScanState stack errors line col current_form in_string true
                    in_comment
      else if (ch =? double_quote)%char then
        mkScanState stack errors line col current_form false escape
                    in_comment
      else
        mkScanState stack errors line col current_form in_string escape
                    in_comment
    else if (ch =? semicolon)%char then
      mkScanState stack errors line col current_form in_string escape true
    else if (ch =? double_quote)%char then
      mkScanState stack errors line col current_form true escape in_comment
    else if is_key OPENING ch then
      let current_form :=
        if (ch =? "(")%char && is_empty stack
        then describe_top_level_form rest line
        else current_form in
      mkScanState (stack ++ [mkParenEntry ch line col current_form]) errors
                  line col current_form in_string escape in_comment
    else
      match CLOSING ch with
      | Some expected_open =>
          match pop stack with
          | None =>
              mkScanState stack (errors ++ [UnexpectedClosing line col ch])
                          line col current_form in_string escape in_comment
          | Some (stack, entry) =>
              let errors :=
                if Ascii.eqb (char entry) expected_open then errors
                else errors ++ [Mismatched line col ch expected_open entry] in
              let current_form :=
                if is_empty stack then "top-level" else current_form in
              mkScanState stack errors line col current_form
                          in_string escape in_comment
          end
      | None =>
          mkScanState stack errors line col current_form
                      in_string escape in_comment
      end.

(** The [while idx < len(text)] loop. *)
Fixpoint loop (st : ScanState) (text : string) : ScanState :=
  match text with
  | EmptyString => st
  | String ch rest => loop (step st ch rest) rest
  end.

(** The diagnostics of a text that was read: the loop's [errors], then the
    entries left on the stack, [reversed]. *)
Definition scan (text : string) : list Diagnostic :=
  let st := loop initial_state text in
  errors st ++ map Unclosed (rev (stack st)).

(** What [path.read_text] gives: the text, or the [OSError] it raises, kept
    as its message. *)
Inductive ReadResult : Type :=
| ReadOk (text : string)
| ReadError (exc : string).

(** [check_file(path)], given what reading the file gave. *)
Definition check_file (path : string) (contents : ReadResult) : list string :=
  match contents with
  | ReadError exc =>
      [(path ++ ": unable to read file (" ++ exc ++ ")")%string]
  | ReadOk text => map (render path) (scan text)
  end.

(** ** File discovery *)

(** A [pathlib.Path] as the list of its parts; [sorted] compares paths part
    by part, each part as a string. *)
Definition Path : Type := list string.

Fixpoint path_leb (p q : Path) : bool :=
  match p, q with
  | [], _ => true
  | _ :: _, [] => false
  | a :: p', b :: q' =>
      match String.compare a b with
      | Lt => true
      | Gt => false
      | Eq => path_leb p' q'
      end
  end.

Fixpoint insert_sorted (p : Path) (l : list Path) : list Path :=
  match l with
  | [] => [p]
  | q :: l' => if path_leb p q then p :: l else q :: insert_sorted p l'
  end.

(** [sorted(paths)] *)
Definition sorted (l : list Path) : list Path :=
  fold_right insert_sorted [] l.

(** What [gather_files] asks of the file system. [rglob p ext] is
    [p.rglob("*" + ext)], in the order the directory walk yields. *)
Record FileSystem : Type := mkFileSystem {
  path_exists : Path -> bool;
  is_dir : Path -> bool;
  is_file : Path -> bool;
  rglob : Path -> string -> list Path
}.

Section GatherFiles.

Variable fs : FileSystem.
(** [Path(raw)] *)
Variable to_path : string -> Path.
(** The order in which [for ext in SIGNIFICANT_EXTENSIONS] visits the set:
    a Python set of strings is visited in an order that follows the
    strings' hashes, which differ from one interpreter run to the next. *)
Variable extension_order : list string.

(** The body of [if p.is_dir()]. *)
Definition expand_directory (p : Path) : list Path :=
  flat_map (fun ext => filter (is_file fs) (sorted (rglob fs p ext)))
           extension_order.

(** [gather_files(paths)]: the pair [(files, missing)]. *)
Fixpoint gather_files_from (files : list Path) (missing : list string)
    (paths : list string) : list Path * list string :=
  match paths with
  | [] => (files, missing)
  | raw :: more =>
      let p := to_path raw in
      if negb (path_exists fs p)
      then gather_files_from files (missing ++ [raw]) more
      else if is_dir fs p
      then gather_files_from (files ++ expand_directory p) missing more
      else gather_files_from (files ++ [p]) missing more
  end.

Definition gather_files (paths : list string) : list Path * list string :=
  gather_files_from [] [] paths.

End GatherFiles.

(** ** The specification's notions *)

(** Where a character stands with respect to string literals and line
    comments (specification, section 3: exactly one of normal, in-string,
    in-comment holds at any position; in a string, an escape may be
    pending). *)
Inductive LexMode : Type :=
| Normal
| InString (pending_escape : bool)
| InComment.

(** Specification, section 4.1, rules 1 to 8: the mode after a character. *)
Definition lex_step (m : LexMode) (ch : ascii) : LexMode :=
  if (ch =? newline)%char then
    match m with InComment => Normal | _ => m end
  else
    match m with
    | InComment => InComment
    | InString true => InString false
    | InString false =>
        if (ch =? backslash)%char then InString true
        else if (ch =? double_quote)%char then Normal
        else InString false
    | Normal =>
        if (ch =? semicolon)%char then InComment
        else if (ch =? double_quote)%char then InString false
        else Normal
    end.

(** The three kinds of delimiter (specification, section 3). *)
Inductive Bracket : Type := Round | Square | Curly.

Inductive Token : Type :=
| Open (k : Bracket)
| Close (k : Bracket).

Definition open_char (k : Bracket) : ascii :=
  match k with Round => "("%char | Square => "["%char | Curly => "{"%char end.

Definition close_char (k : Bracket) : ascii :=
  match k with Round => ")"%char | Square => "]"%char | Curly => "}"%char end.

(** Glossary: a delimiter is one of the six characters. *)
Definition delimiter_of (ch : ascii) : option Token :=
  if (ch =? "(")%char then Some (Open Round)
  else if (ch =? ")")%char then Some (Close Round)
  else if (ch =? "[")%char then Some (Open Square)
  else if (ch =? "]")%char then Some (Close Square)
  else if (ch =? "{")%char then Some (Open Curly)
  else if (ch =? "}")%char then Some (Close Curly)
  else None.

Definition is_delimiter (ch : ascii) : bool :=
  match delimiter_of ch with Some _ => true | None => false end.

(** The delimiters of a text that stand outside string literals and line
    comments, in order, reading from mode [m]. *)
Fixpoint structural_from (m : LexMode) (s : string) : list Token :=
  match s with
  | EmptyString => []
  | String ch rest =>
      match m, delimiter_of ch with
      | Normal, Some t => t :: structural_from (lex_step m ch) rest
      | _, _ => structural_from (lex_step m ch) rest
      end
  end.

Definition structural (text : string) : list Token :=
  structural_from Normal text.

(** Glossary, Balanced: every opening delimiter has exactly one correctly
    typed, correctly ordered closing delimiter, and no closing delimiter
    lacks a matching opener. *)
Inductive Balanced : list Token -> Prop :=
| Balanced_nil : Balanced []
| Balanced_wrap (k : Bracket) (inner after : list Token) :
    Balanced inner -> Balanced after ->
    Balanced (Open k :: inner ++ Close k :: after).

(** The text of a file is balanced when its structural delimiters are. *)
Definition balanced_text (text : string) : Prop :=
  Balanced (structural text).

(** A character with no lexical role inside a string or a comment: not a
    delimiter, and none of newline, double quote, backslash. *)
Definition inert_char (ch : ascii) : bool :=
  negb (is_delimiter ch) && negb (ch =? newline)%char
  && negb (ch =? double_quote)%char && negb (ch =? backslash)%char.

(** The text with every delimiter that stands inside a string literal or a
    line comment replaced by [r]. *)
Fixpoint mask_from (r : ascii) (m : LexMode) (s : string) : string :=
  match s with
  | EmptyString => EmptyString
  | String ch rest =>
      String (match m with
              | Normal => ch
              | _ => if is_delimiter ch then r else ch
              end)
             (mask_from r (lex_step m ch) rest)
  end.

Definition mask (r : ascii) (text : string) : string :=
  mask_from r Normal text.

(** The stack discipline on tokens alone: [stk] holds the opening
    characters still open, innermost first. It answers whether reading
    [toks] from there raises no complaint and leaves nothing open. *)
Fixpoint balanced_from (stk : list ascii) (toks : list Token) : bool :=
  match toks with
  | [] => match stk with [] => true | _ => false end
  | Open k :: ts => balanced_from (open_char k :: stk) ts
  | Close k :: ts =>
      match stk with
      | [] => false
      | top :: stk' => Ascii.eqb top (open_char k) && balanced_from stk' ts
      end
  end.

(** The flags of a scan state as a lexical mode. *)
Definition mode_of (st : ScanState) : LexMode :=
  if in_comment st then InComment
  else if in_string st then InString (escape st)
  else Normal.

(** The flags never contradict each other: a comment is not inside a
    string, and an escape is pending only inside a string. *)
Definition coherent (st : ScanState) : Prop :=
  (in_comment st = true -> in_string st = false)
  /\ (escape st = true -> in_string st = true).

(** The opening characters on the stack, innermost first. *)
Definition open_chars (stk : list ParenEntry) : list ascii :=
  rev (map char stk).

(** The diagnostics of the scan that continues from [st] over [s]. *)
Definition scan_from (st : ScanState) (s : string) : list Diagnostic :=
  let st' := loop st s in
  errors st' ++ map Unclosed (rev (stack st')).

(** The tokens one character contributes when read in mode [m]. *)
Definition tokens_of (m : LexMode) (ch : ascii) : list Token :=
  match m, delimiter_of ch with
  | Normal, Some t => [t]
  | _, _ => []
  end.

(** No diagnostic so far, and the tokens still to come close exactly what
    the stack holds. *)
Definition clean (st : ScanState) (toks : list Token) : bool :=
  match errors st with
  | [] => balanced_from (open_chars (stack st)) toks
  | _ :: _ => false
  end.

(** A diagnostic of the kind appended after the loop. *)
Definition is_unclosed (d : Diagnostic) : bool :=
  match d with Unclosed _ => true | _ => false end.

(** [e1] was opened at an earlier place of the text than [e2]. *)
Definition opened_before (e1 e2 : ParenEntry) : Prop :=
  line e1 < line e2 \/ (line e1 = line e2 /\ col e1 < col e2).

(** [e] was opened at or before the place the scan has reached. *)
Definition opened_by (st : ScanState) (e : ParenEntry) : Prop :=
  line e < cur_line st \/ (line e = cur_line st /\ col e <= cur_col st).

(** The stack lists its entries in the order of the places they were
    opened at, none of them beyond the place the scan has reached. *)
Definition stack_in_push_order (st : ScanState) : Prop :=
  StronglySorted opened_before (stack st)
  /\ Forall (opened_by st) (stack st).

(** A text with a string literal and a line comment that both hold
    delimiters: an opening parenthesis, the letter f, a string literal
    holding an opening parenthesis and a closing bracket, a line comment
    holding a closing brace, and on the next line the closing
    parenthesis. *)
Definition sample_text : string :=
  ("(f " ++ String double_quote "(]" ++ String double_quote " ; }"
   ++ String newline ")")%string.

(** A state inside a string literal, one parenthesis open. *)
Definition sample_string_state : ScanState :=
  mkScanState [mkParenEntry "(" 1 1 "f form line 1"] [] 1 4 "f form line 1"
              true false false.

(** A state in normal mode, one parenthesis open. *)
Definition sample_normal_state : ScanState :=
  mkScanState [mkParenEntry "(" 1 1 "f form line 1"] [] 1 4 "f form line 1"
              false false false.

(** The states the loop goes through, one after each character. *)
Fixpoint trace (st : ScanState) (text : string) : list ScanState :=
  match text with
  | EmptyString => []
  | String ch rest => let st' := step st ch rest in st' :: trace st' rest
  end.

(** A character that may stand in a symbol. *)
Definition symbol_char (ch : ascii) : bool :=
  negb (WHITESPACE ch) && negb (delimiter_or_quote ch)
  && negb (ch =? semicolon)%char.

Fixpoint all_chars (p : ascii -> bool) (s : string) : bool :=
  match s with
  | EmptyString => true
  | String ch rest => p ch && all_chars p rest
  end.

(** [name.endswith(suffix)], which is what the pattern [*suffix] asks of a
    file name. *)
Fixpoint has_suffix (suffix s : string) : bool :=
  String.eqb suffix s
  || match s with
     | EmptyString => false
     | String _ s' => has_suffix suffix s'
     end.

(** The paths of a list are in lexicographic order. *)
Fixpoint in_path_order (l : list Path) : bool :=
  match l with
  | [] => true
  | p :: l' =>
      match l' with
      | [] => true
      | q :: _ => path_leb p q && in_path_order l'
      end
  end.

(** A file system that holds one directory, [src], and in it the plain
    files listed in [names]. *)
Definition directory_of (names : list string) : FileSystem :=
  mkFileSystem
    (fun p => if list_eq_dec string_dec p ["src"] then true
              else existsb (fun f => if list_eq_dec string_dec p ["src"; f]
                                     then true else false) names)
    (fun p => if list_eq_dec string_dec p ["src"] then true else false)
    (fun p => existsb (fun f => if list_eq_dec string_dec p ["src"; f]
                                then true else false) names)
    (fun p ext =>
       if list_eq_dec string_dec p ["src"]
       then map (fun f => ["src"; f]) (filter (has_suffix ext) names)
       else []).

(** [Path(raw)] for a name without separator. *)
Definition single_part (raw : string) : Path := [raw].

(** The six orders in which a set of the three extensions may be
    visited. *)
Definition extension_orders : list (list string) :=
  [[".clj"; ".cljc"; ".cljs"]; [".clj"; ".cljs"; ".cljc"];
   [".cljc"; ".clj"; ".cljs"]; [".cljc"; ".cljs"; ".clj"];
   [".cljs"; ".clj"; ".cljc"]; [".cljs"; ".cljc"; ".clj"]].

(** For a visiting order, a directory with two files: [b] with the
    extension visited first and [a] with the extension visited second. *)
Definition out_of_order_names (order : list string) : list string :=
  match order with
  | e1 :: e2 :: _ => [("b" ++ e1)%string; ("a" ++ e2)%string]
  | _ => []
  end.

(** ** Further notions used to state what the scanner keeps *)

(** The scan of the first part [w] of a text [w ++ tail]: the loop run
    over the characters of [w], each step seeing all the text that follows
    its character. *)
Fixpoint loop_prefix (st : ScanState) (w tail : string) : ScanState :=
  match w with
  | EmptyString => st
  | String ch rest => loop_prefix (step st ch (rest ++ tail)%string) rest tail
  end.

(** How many times [c] occurs in [s]. *)
Fixpoint count_char (c : ascii) (s : string) : nat :=
  match s with
  | EmptyString => 0
  | String ch rest =>
      (if (ch =? c)%char then 1 else 0) + count_char c rest
  end.

(** The part of [s] after its last newline; all of [s] when it has none. *)
Fixpoint last_line (s : string) : string :=
  match s with
  | EmptyString => EmptyString
  | String ch rest =>
      if (0 <? count_char newline rest)%nat then last_line rest
      else if (ch =? newline)%char then rest
      else s
  end.

(** An entry as [check_file] pushes them: an opening delimiter, at a
    1-based line and column. *)
Definition well_formed_entry (e : ParenEntry) : Prop :=
  is_key OPENING (char e) = true /\ 1 <= line e /\ 1 <= col e.

(** Every open delimiter is attributed to the current form, and with
    nothing open the current form is the sentinel. *)
Definition labels_agree (st : ScanState) : Prop :=
  Forall (fun e => form e = current_form st) (stack st)
  /\ (stack st = [] -> current_form st = "top-level").

(** [l1] is an initial segment of [l2]. *)
Definition is_prefix {A : Type} (l1 l2 : list A) : Prop :=
  exists more, l2 = l1 ++ more.

(** ** The command line *)


Section Main.

Variable fs : FileSystem.
Variable to_path : string -> Path.
Variable extension_order : list string.
(** [str(path)], as the f-strings of [main] and [check_file] print it. *)
Variable path_str : Path -> string.
(** What [path.read_text] gives for each path. *)
Variable read_text : Path -> ReadResult.






End Main.

(** The four things a step can do to the stack, the diagnostics and the
    label. *)
Inductive StepCase (st : ScanState) (ch : ascii) (rest : string) : Prop :=
| StepQuiet :
    tokens_of (mode_of st) ch = [] ->
    stack (step st ch rest) = stack st ->
    errors (step st ch rest) = errors st ->
    current_form (step st ch rest) = current_form st ->
    StepCase st ch rest
| StepPush (k : Bracket) :
    ch = open_char k ->
    tokens_of (mode_of st) ch = [Open k] ->
    stack (step st ch rest)
    = stack st ++ [mkParenEntry ch (cur_line st) (cur_col st + 1)
                                (current_form (step st ch rest))] ->
    errors (step st ch rest) = errors st ->
    current_form (step st ch rest)
    = (if (ch =? "(")%char && is_empty (stack st)
       then describe_top_level_form rest (cur_line st)
       else current_form st) ->
    StepCase st ch rest
| StepUnexpected (k : Bracket) :
    ch = close_char k ->
    tokens_of (mode_of st) ch = [Close k] ->
    stack st = [] ->
    stack (step st ch rest) = [] ->
    errors (step st ch rest)
    = errors st ++ [UnexpectedClosing (cur_line st) (cur_col st + 1) ch] ->
    current_form (step st ch rest) = current_form st ->
    StepCase st ch rest
| StepPop (k : Bracket) (below : list ParenEntry) (e : ParenEntry) :
    ch = close_char k ->
    tokens_of (mode_of st) ch = [Close k] ->
    stack st = below ++ [e] ->
    stack (step st ch rest) = below ->
    errors (step st ch rest)
    = (if Ascii.eqb (char e) (open_char k) then errors st
       else errors st ++ [Mismatched (cur_line st) (cur_col st + 1) ch
                                     (open_char k) e]) ->
    current_form (step st ch rest)
    = (if is_empty below then "top-level" else current_form st) ->
    StepCase st ch rest.

(** * Proofs *)

(** ** The loop of [skip_space_and_comments] *)

(** The loop body as one equation. *)
Lemma skip_space_and_comments_cons (ch : ascii) (rest : string) :
  skip_space_and_comments (String ch rest) =
    if WHITESPACE ch then skip_space_and_comments rest
    else if (ch =? semicolon)%char
         then skip_space_and_comments (skip_comment (String ch rest))
         else String ch rest.
Proof.
  simp skip_space_and_comments.
  destruct (WHITESPACE ch); simp skip_space_and_comments; [reflexivity|].
  unfold inspect.
  enough (H : forall (b : bool) (e : (ch =? semicolon)%char = b),
             skip_space_and_comments_unfold_clause_2_clause_2 ch
               (exist _ b e) rest =
             if b then skip_space_and_comments (skip_comment (String ch rest))
             else String ch rest) by apply H.
  intros [] e; simp skip_space_and_comments; reflexivity.
Qed.

(** ** Lists used as stacks *)

Lemma pop_nil {A : Type} : pop (@nil A) = None.
Proof. reflexivity. Qed.

Lemma pop_snoc {A : Type} (l : list A) (x : A) : pop (l ++ [x]) = Some (l, x).
Proof. unfold pop. rewrite rev_app_distr. simpl. now rewrite rev_involutive. Qed.

Lemma pop_None_inv {A : Type} (l : list A) : pop l = None -> l = [].
Proof.
  destruct l as [|a l] using rev_ind; [reflexivity|].
  now rewrite pop_snoc.
Qed.

Lemma pop_Some_inv {A : Type} (l l' : list A) (x : A) :
  pop l = Some (l', x) -> l = l' ++ [x].
Proof.
  destruct l as [|a l] using rev_ind; [discriminate|].
  rewrite pop_snoc. now intros [= <- <-].
Qed.

(** ** Characters *)

Lemma OPENING_open_char (k : Bracket) :
  OPENING (open_char k) = Some (close_char k).
Proof. now destruct k. Qed.

Lemma CLOSING_close_char (k : Bracket) :
  CLOSING (close_char k) = Some (open_char k).
Proof. now destruct k. Qed.

Lemma open_char_inj (j k : Bracket) : open_char j = open_char k -> j = k.
Proof. now destruct j, k. Qed.

(** Every character is an opening delimiter, a closing delimiter, or no
    delimiter at all, and the source's two dictionaries agree with it. *)
Inductive CharClass (ch : ascii) : Prop :=
| IsOpen (k : Bracket) : ch = open_char k -> CharClass ch
| IsClose (k : Bracket) : ch = close_char k -> CharClass ch
| IsOther : delimiter_of ch = None -> OPENING ch = None ->
    CLOSING ch = None -> CharClass ch.

Lemma classify (ch : ascii) : CharClass ch.
Proof.
  destruct (Ascii.eqb_spec ch "(") as [->|n1]; [now apply (IsOpen _ Round)|].
  destruct (Ascii.eqb_spec ch ")") as [->|n2]; [now apply (IsClose _ Round)|].
  destruct (Ascii.eqb_spec ch "[") as [->|n3]; [now apply (IsOpen _ Square)|].
  destruct (Ascii.eqb_spec ch "]") as [->|n4]; [now apply (IsClose _ Square)|].
  destruct (Ascii.eqb_spec ch "{") as [->|n5]; [now apply (IsOpen _ Curly)|].
  destruct (Ascii.eqb_spec ch "}") as [->|n6]; [now apply (IsClose _ Curly)|].
  apply Ascii.eqb_neq in n1, n2, n3, n4, n5, n6.
  apply IsOther; unfold delimiter_of, OPENING, CLOSING;
    now rewrite ?n1, ?n2, ?n3, ?n4, ?n5, ?n6.
Qed.

(** ** Balanced token lists and the stack discipline *)

Lemma Balanced_app (a b : list Token) :
  Balanced a -> Balanced b -> Balanced (a ++ b).
Proof.
  induction 1 as [|k inner after Hin _ _ IH]; intros Hb; [exact Hb|].
  simpl. rewrite <- app_assoc. simpl.
  apply Balanced_wrap; [assumption|now apply IH].
Qed.

Lemma Balanced_pair (k : Bracket) : Balanced [Open k; Close k].
Proof. apply (Balanced_wrap k [] []); constructor. Qed.

(** A matched pair may be put anywhere in a balanced list. *)
Lemma Balanced_insert (k : Bracket) (w : list Token) :
  Balanced w ->
  forall a b, w = a ++ b -> Balanced (a ++ Open k :: Close k :: b).
Proof.
  induction 1 as [|j inner after Hin IHin Haf IHaf]; intros a b E.
  - symmetry in E. apply app_eq_nil in E as [-> ->]. apply Balanced_pair.
  - destruct a as [|t a]; simpl in E.
    + subst b. apply (Balanced_app [Open k; Close k]);
        [apply Balanced_pair|now apply Balanced_wrap].
    + injection E as <- E.
      apply app_eq_app in E as [l [[E1 E2]|[E1 E2]]].
      * subst inner b. simpl.
        replace (Open j :: a ++ Open k :: Close k :: l ++ Close j :: after)
          with (Open j :: (a ++ Open k :: Close k :: l) ++ Close j :: after)
          by (now rewrite <- app_assoc).
        apply Balanced_wrap; [|assumption]. now apply IHin.
      * subst a. destruct l as [|t l]; simpl in E2.
        -- subst b. rewrite app_nil_r. simpl.
           replace (Open j :: inner ++ Open k :: Close k :: Close j :: after)
             with (Open j :: (inner ++ [Open k; Close k]) ++ Close j :: after)
             by (now rewrite <- app_assoc).
           apply Balanced_wrap; [|assumption].
           apply Balanced_app; [assumption|apply Balanced_pair].
        -- injection E2 as <- E2. subst after. simpl.
           rewrite <- app_assoc. simpl.
           apply Balanced_wrap; [assumption|]. now apply IHaf.
Qed.

Lemma balanced_from_app (w : list Token) :
  Balanced w ->
  forall stk rest, balanced_from stk (w ++ rest) = balanced_from stk rest.
Proof.
  induction 1 as [|k inner after _ IHin _ IHaf]; intros stk rest;
    [reflexivity|].
  simpl. rewrite <- app_assoc. rewrite IHin. simpl.
  rewrite Ascii.eqb_refl. simpl. apply IHaf.
Qed.

Lemma balanced_from_sound (toks : list Token) :
  forall ks : list Bracket,
    balanced_from (map open_char ks) toks = true ->
    Balanced (rev (map Open ks) ++ toks).
Proof.
  induction toks as [|[k|k] ts IH]; intros ks H; simpl in H.
  - destruct ks; [constructor|discriminate].
  - specialize (IH (k :: ks) H). simpl in IH.
    now rewrite <- app_assoc in IH.
  - destruct ks as [|j ks]; [discriminate|]. simpl in H.
    apply andb_prop in H as [Hj H].
    apply Ascii.eqb_eq, open_char_inj in Hj. subst j.
    simpl. rewrite <- app_assoc. simpl.
    now apply (Balanced_insert k _ (IH ks H)).
Qed.

(** The stack discipline accepts exactly the balanced token lists. *)
Lemma balanced_from_iff (toks : list Token) :
  balanced_from [] toks = true <-> Balanced toks.
Proof.
  split.
  - intros H. apply (balanced_from_sound toks []). exact H.
  - intros H. rewrite <- (app_nil_r toks).
    now rewrite (balanced_from_app toks H).
Qed.

(** ** The scanner's flags follow the specification's lexical modes *)

Lemma initial_coherent : coherent initial_state.
Proof. split; discriminate. Qed.

Lemma step_coherent (st : ScanState) (ch : ascii) (rest : string) :
  coherent st -> coherent (step st ch rest).
Proof.
  destruct st as [stk errs l c cf ins esc inc]. unfold coherent. simpl.
  intros [H1 H2].
  destruct (ch =? newline)%char; [simpl; split; [discriminate|assumption]|].
  destruct inc; [simpl; now split|].
  destruct ins.
  - destruct esc; [simpl; split; [discriminate|discriminate]|].
    destruct (ch =? backslash)%char; [simpl; now split|].
    destruct (ch =? double_quote)%char; simpl; now split.
  - destruct (ch =? semicolon)%char; [simpl; split; [reflexivity|assumption]|].
    destruct (ch =? double_quote)%char;
      [simpl; split; [discriminate|reflexivity]|].
    destruct (is_key OPENING ch); [simpl; now split|].
    destruct (CLOSING ch); [|simpl; now split].
    destruct (pop stk) as [[s' e]|]; simpl; now split.
Qed.

Lemma step_mode (st : ScanState) (ch : ascii) (rest : string) :
  coherent st -> mode_of (step st ch rest) = lex_step (mode_of st) ch.
Proof.
  destruct st as [stk errs l c cf ins esc inc]. unfold coherent, mode_of, lex_step.
  simpl. intros [H1 H2].
  destruct (ch =? newline)%char.
  - simpl. destruct inc; [now rewrite H1|]. now destruct ins.
  - destruct inc; [reflexivity|].
    destruct ins.
    + destruct esc; [reflexivity|].
      destruct (ch =? backslash)%char; [reflexivity|].
      now destruct (ch =? double_quote)%char.
    + destruct esc; [now specialize (H2 eq_refl)|].
      destruct (ch =? semicolon)%char; [reflexivity|].
      destruct (ch =? double_quote)%char; [reflexivity|].
      destruct (is_key OPENING ch); [reflexivity|].
      destruct (CLOSING ch); [|reflexivity].
      now destruct (pop stk) as [[s' e]|].
Qed.

Lemma loop_coherent (s : string) :
  forall st, coherent st -> coherent (loop st s).
Proof.
  induction s as [|ch rest IH]; intros st H; [exact H|].
  simpl. now apply IH, step_coherent.
Qed.

(** ** What one step does to the stack and the diagnostics *)

(** Inside a string or a comment nothing but the position and the flags
    changes. *)
Lemma step_not_normal (st : ScanState) (ch : ascii) (rest : string) :
  mode_of st <> Normal ->
  stack (step st ch rest) = stack st
  /\ errors (step st ch rest) = errors st
  /\ current_form (step st ch rest) = current_form st.
Proof.
  destruct st as [stk errs l c cf ins esc inc]. unfold mode_of. simpl.
  intros H.
  destruct (ch =? newline)%char; [now simpl|].
  destruct inc; [now simpl|].
  destruct ins; [|now contradiction H].
  destruct esc; [now simpl|].
  destruct (ch =? backslash)%char; [now simpl|].
  now destruct (ch =? double_quote)%char.
Qed.

(** A character that is no delimiter changes neither. *)
Lemma step_other (st : ScanState) (ch : ascii) (rest : string) :
  OPENING ch = None -> CLOSING ch = None ->
  stack (step st ch rest) = stack st
  /\ errors (step st ch rest) = errors st
  /\ current_form (step st ch rest) = current_form st.
Proof.
  destruct st as [stk errs l c cf ins esc inc]. simpl. intros Ho Hc.
  unfold is_key. rewrite Ho, Hc.
  destruct (ch =? newline)%char; [now simpl|].
  destruct inc; [now simpl|].
  destruct ins.
  - destruct esc; [now simpl|].
    destruct (ch =? backslash)%char; [now simpl|].
    now destruct (ch =? double_quote)%char.
  - destruct (ch =? semicolon)%char; [now simpl|].
    now destruct (ch =? double_quote)%char.
Qed.

(** An opening delimiter read in normal mode. *)
Lemma step_open (k : Bracket) (stk : list ParenEntry)
    (errs : list Diagnostic) (l c : nat) (cf : string) (esc : bool)
    (rest : string) :
  step (mkScanState stk errs l c cf false esc false) (open_char k) rest =
    let cf' :=
      if (open_char k =? "(")%char && is_empty stk
      then describe_top_level_form rest l else cf in
    mkScanState (stk ++ [mkParenEntry (open_char k) l (c + 1) cf']) errs
                l (c + 1) cf' false esc false.
Proof. now destruct k. Qed.

(** A closing delimiter read in normal mode. *)
Lemma step_close (k : Bracket) (stk : list ParenEntry)
    (errs : list Diagnostic) (l c : nat) (cf : string) (esc : bool)
    (rest : string) :
  step (mkScanState stk errs l c cf false esc false) (close_char k) rest =
    match pop stk with
    | None =>
        mkScanState stk (errs ++ [UnexpectedClosing l (c + 1) (close_char k)])
                    l (c + 1) cf false esc false
    | Some (stk', entry) =>
        mkScanState stk'
          (if Ascii.eqb (char entry) (open_char k) then errs
           else errs ++ [Mismatched l (c + 1) (close_char k) (open_char k)
                                    entry])
          l (c + 1)
          (if is_empty stk' then "top-level" else cf)
          false esc false
    end.
Proof. now destruct k. Qed.

Lemma open_chars_snoc (stk : list ParenEntry) (e : ParenEntry) :
  open_chars (stk ++ [e]) = char e :: open_chars stk.
Proof. unfold open_chars. now rewrite map_app, rev_app_distr. Qed.

Lemma clean_unchanged (st st' : ScanState) (toks : list Token) :
  stack st' = stack st /\ errors st' = errors st /\
  current_form st' = current_form st ->
  clean st' toks = clean st toks.
Proof. intros (Hs & He & _). unfold clean. now rewrite Hs, He. Qed.

Lemma delimiter_of_open_char (k : Bracket) :
  delimiter_of (open_char k) = Some (Open k).
Proof. now destruct k. Qed.

Lemma delimiter_of_close_char (k : Bracket) :
  delimiter_of (close_char k) = Some (Close k).
Proof. now destruct k. Qed.

Lemma tokens_of_other (m : LexMode) (ch : ascii) :
  delimiter_of ch = None -> tokens_of m ch = [].
Proof. unfold tokens_of. intros ->. now destruct m. Qed.

Lemma tokens_of_not_normal (m : LexMode) (ch : ascii) :
  m <> Normal -> tokens_of m ch = [].
Proof. unfold tokens_of. destruct m; [contradiction|reflexivity..]. Qed.

(** One step keeps the account: the state after the step is clean for the
    tokens to come exactly when the state before it is clean for the
    tokens of this character followed by those. *)
Lemma step_clean (st : ScanState) (ch : ascii) (rest : string)
    (toks : list Token) :
  coherent st ->
  clean (step st ch rest) toks
  = clean st (tokens_of (mode_of st) ch ++ toks).
Proof.
  intros Hc.
  destruct (mode_of st) eqn:Hm.
  2,3: rewrite tokens_of_not_normal by discriminate;
       apply clean_unchanged, step_not_normal; rewrite Hm; discriminate.
  destruct (classify ch) as [k ->|k ->|Hd Ho Hcl].
  3: rewrite tokens_of_other by assumption;
     now apply clean_unchanged, step_other.
  all: destruct st as [stk errs l c cf ins esc inc];
    unfold mode_of in Hm; simpl in Hm;
    destruct inc; [discriminate|]; destruct ins; [discriminate|].
  - rewrite step_open. unfold tokens_of, clean.
    rewrite delimiter_of_open_char. simpl.
    now rewrite open_chars_snoc.
  - rewrite step_close. unfold tokens_of, clean.
    rewrite delimiter_of_close_char. simpl.
    destruct (pop stk) as [[stk' e]|] eqn:Hp.
    + apply pop_Some_inv in Hp. subst stk. rewrite open_chars_snoc. simpl.
      destruct (Ascii.eqb (char e) (open_char k)); simpl.
      * reflexivity.
      * now destruct errs.
    + apply pop_None_inv in Hp. subst stk. simpl. now destruct errs.
Qed.

Lemma structural_from_cons (m : LexMode) (ch : ascii) (rest : string) :
  structural_from m (String ch rest)
  = tokens_of m ch ++ structural_from (lex_step m ch) rest.
Proof.
  unfold tokens_of. simpl.
  destruct m; [|reflexivity..]. now destruct (delimiter_of ch).
Qed.

(** The scan from a coherent state reports nothing exactly when the state
    is clean for the structural delimiters still to come. *)
Lemma scan_from_clean (s : string) :
  forall st, coherent st ->
    scan_from st s = [] <->
    clean st (structural_from (mode_of st) s) = true.
Proof.
  induction s as [|ch rest IH]; intros st Hc.
  - unfold scan_from, clean, open_chars. simpl.
    destruct (errors st); [|split; discriminate]. simpl.
    destruct (stack st) as [|e stk]; [now split|]. simpl.
    rewrite map_app.
    destruct (map Unclosed (rev stk)), (rev (map char stk)); simpl;
      split; discriminate.
  - change (scan_from st (String ch rest))
      with (scan_from (step st ch rest) rest).
    rewrite (IH _ (step_coherent st ch rest Hc)).
    rewrite step_mode by assumption.
    rewrite step_clean by assumption.
    now rewrite structural_from_cons.
Qed.

(** C1. For every text that was read, [check_file] returns no diagnostic
    if and only if the text is balanced: its delimiters outside string
    literals and line comments form a balanced list, each opening
    delimiter closed by a closing delimiter of its own kind in nested
    order, and no closing delimiter met with nothing open. *)
Theorem check_file_empty_iff_balanced (path text : string) :
  check_file path (ReadOk text) = [] <-> balanced_text text.
Proof.
  unfold check_file, balanced_text, structural.
  rewrite <- balanced_from_iff.
  change (scan text) with (scan_from initial_state text).
  pose proof (scan_from_clean text initial_state initial_coherent) as H.
  change (clean initial_state (structural_from (mode_of initial_state) text))
    with (balanced_from [] (structural_from Normal text)) in H.
  rewrite <- H.
  destruct (scan_from initial_state text); simpl; split;
    try reflexivity; discriminate.
Qed.

(** ** The two worked examples *)

(** C2, as the specification recomputes it: three unclosed delimiters, the
    innermost at column 13. The scan does not give that list. *)
Lemma example2_not_three_unclosed :
  scan "(defn f [x (+ x 1)"
  <> [Unclosed (mkParenEntry "(" 1 13 "defn f");
      Unclosed (mkParenEntry "[" 1 9 "defn f");
      Unclosed (mkParenEntry "(" 1 1 "defn f")].
Proof. vm_compute. discriminate. Qed.

(** C2, amended. On this input the inner opening parenthesis stands at
    column 12 and is closed by the closing parenthesis at column 18; the
    scan emits exactly two diagnostics, both for unclosed delimiters: the
    square bracket opened at line 1 column 9, then the parenthesis opened
    at line 1 column 1, each attributed to the form defn f. *)
Theorem example2_two_unclosed :
  scan "(defn f [x (+ x 1)"
  = [Unclosed (mkParenEntry "[" 1 9 "defn f");
     Unclosed (mkParenEntry "(" 1 1 "defn f")]
  /\ check_file "core.clj" (ReadOk "(defn f [x (+ x 1)")
    = ["core.clj:1:9 open '[' was never closed (inside defn f)";
       "core.clj:1:1 open '(' was never closed (inside defn f)"]
  /\ nth_error (map stack (trace initial_state "(defn f [x (+ x 1)")) 11
    = Some [mkParenEntry "(" 1 1 "defn f"; mkParenEntry "[" 1 9 "defn f";
            mkParenEntry "(" 1 12 "defn f"]
  /\ nth_error (map stack (trace initial_state "(defn f [x (+ x 1)")) 17
    = Some [mkParenEntry "(" 1 1 "defn f"; mkParenEntry "[" 1 9 "defn f"].
Proof. repeat split; vm_compute; reflexivity. Qed.

(** C3, as stated: the unexpected closing bracket reported at column 9.
    The scan does not give that diagnostic. *)
Lemma example3_not_column_9 :
  scan "(+ 1 2)]" <> [UnexpectedClosing 1 9 "]"].
Proof. vm_compute. discriminate. Qed.

(** C3, amended. On this input the scan emits exactly one diagnostic, an
    unexpected closing delimiter for the square bracket, at line 1 column 8
    (the bracket is the eighth character of the line), and no diagnostic
    for an unclosed delimiter. *)
Theorem example3_unexpected_at_column_8 :
  scan "(+ 1 2)]" = [UnexpectedClosing 1 8 "]"]
  /\ check_file "core.clj" (ReadOk "(+ 1 2)]")
    = ["core.clj:1:8 unexpected ']' (outside any open form)"].
Proof. split; vm_compute; reflexivity. Qed.

(** ** Order of the diagnostics *)

Lemma step_position (st : ScanState) (ch : ascii) (rest : string) :
  (cur_line (step st ch rest), cur_col (step st ch rest))
  = if (ch =? newline)%char then (cur_line st + 1, 0)
    else (cur_line st, cur_col st + 1).
Proof.
  destruct st as [stk errs l c cf ins esc inc]. simpl.
  destruct (ch =? newline)%char; [reflexivity|].
  destruct inc; [reflexivity|].
  destruct ins.
  - destruct esc; [reflexivity|].
    destruct (ch =? backslash)%char; [reflexivity|].
    now destruct (ch =? double_quote)%char.
  - destruct (ch =? semicolon)%char; [reflexivity|].
    destruct (ch =? double_quote)%char; [reflexivity|].
    destruct (is_key OPENING ch); [reflexivity|].
    destruct (CLOSING ch); [|reflexivity].
    now destruct (pop stk) as [[stk' e]|].
Qed.

Lemma normal_flags (st : ScanState) :
  mode_of st = Normal -> in_comment st = false /\ in_string st = false.
Proof.
  unfold mode_of. destruct (in_comment st); [discriminate|].
  destruct (in_string st); [discriminate|]. now split.
Qed.

(** One step appends at most one diagnostic, never one for an unclosed
    delimiter, and leaves the stack as it is, or pushes one entry opened at
    the character just read, or pops one entry. *)
Lemma step_shape (st : ScanState) (ch : ascii) (rest : string) :
  exists new,
    errors (step st ch rest) = errors st ++ new
    /\ Forall (fun d => is_unclosed d = false) new
    /\ (stack (step st ch rest) = stack st
        \/ (exists cf, (ch =? newline)%char = false /\
              stack (step st ch rest)
              = stack st ++ [mkParenEntry ch (cur_line st) (cur_col st + 1) cf])
        \/ (exists e, stack st = stack (step st ch rest) ++ [e])).
Proof.
  destruct (mode_of st) eqn:Hm.
  2,3: exists []; rewrite app_nil_r;
       destruct (step_not_normal st ch rest) as (Hs & He & _);
         [rewrite Hm; discriminate|]; auto.
  destruct (classify ch) as [k ->|k ->|Hd Ho Hcl].
  3: exists []; rewrite app_nil_r;
     destruct (step_other st ch rest Ho Hcl) as (Hs & He & _); auto.
  all: apply normal_flags in Hm as [Hic His];
    destruct st as [stk errs l c cf ins esc inc]; simpl in Hic, His;
    subst inc ins.
  - rewrite step_open. exists []. rewrite app_nil_r. simpl.
    repeat split; [constructor|]. right. left. eexists. split; [|reflexivity].
    now destruct k.
  - rewrite step_close. destruct (pop stk) as [[stk' e]|] eqn:Hp.
    + apply pop_Some_inv in Hp. simpl.
      destruct (Ascii.eqb (char e) (open_char k)).
      * exists []. rewrite app_nil_r. repeat split; [constructor|].
        right. right. now exists e.
      * eexists. repeat split; [now repeat constructor|].
        right. right. now exists e.
    + eexists. simpl. repeat split; [now repeat constructor|]. now left.
Qed.

Lemma loop_errors_kind (s : string) :
  forall st,
    Forall (fun d => is_unclosed d = false) (errors st) ->
    Forall (fun d => is_unclosed d = false) (errors (loop st s)).
Proof.
  induction s as [|ch rest IH]; intros st H; [exact H|].
  simpl. apply IH.
  destruct (step_shape st ch rest) as (new & -> & Hnew & _).
  apply Forall_app. now split.
Qed.

Lemma StronglySorted_snoc {A : Type} (R : A -> A -> Prop) (l : list A)
    (x : A) :
  StronglySorted R l -> Forall (fun y => R y x) l ->
  StronglySorted R (l ++ [x]).
Proof.
  induction 1 as [|a l Hs IH Ha]; intros Hx; simpl.
  - repeat constructor.
  - inversion Hx as [|? ? Hax Hlx]; subst. constructor; [now apply IH|].
    apply Forall_app. split; [assumption|now constructor].
Qed.

Lemma StronglySorted_prefix {A : Type} (R : A -> A -> Prop) (l l' : list A) :
  StronglySorted R (l ++ l') -> StronglySorted R l.
Proof.
  induction l as [|a l IH]; intros H; [constructor|].
  simpl in H. inversion H as [|? ? Hs Ha]; subst.
  constructor; [now apply IH|]. now apply Forall_app in Ha as [Ha _].
Qed.

Lemma step_push_order (st : ScanState) (ch : ascii) (rest : string) :
  stack_in_push_order st -> stack_in_push_order (step st ch rest).
Proof.
  intros [Hs Hb]. unfold stack_in_push_order.
  pose proof (step_position st ch rest) as Hp.
  assert (Hmono : forall e, opened_by st e -> opened_by (step st ch rest) e).
  { intros e. unfold opened_by.
    destruct (ch =? newline)%char; injection Hp as -> ->; lia. }
  destruct (step_shape st ch rest) as (_ & _ & _ & [E|[(cf & Hn & E)|(e & E)]]).
  - rewrite E. split; [assumption|].
    eapply Forall_impl; [exact Hmono|assumption].
  - rewrite E. rewrite Hn in Hp. injection Hp as Hl Hcol. split.
    + apply StronglySorted_snoc; [assumption|].
      eapply Forall_impl; [|exact Hb].
      intros e. unfold opened_by, opened_before. simpl. lia.
    + apply Forall_app. split.
      * eapply Forall_impl; [exact Hmono|assumption].
      * constructor; [|constructor]. unfold opened_by. simpl. lia.
  - rewrite E in Hs, Hb. split.
    + now apply StronglySorted_prefix in Hs.
    + apply Forall_app in Hb as [Hb _].
      eapply Forall_impl; [exact Hmono|assumption].
Qed.

Lemma loop_push_order (s : string) :
  forall st, stack_in_push_order st -> stack_in_push_order (loop st s).
Proof.
  induction s as [|ch rest IH]; intros st H; [exact H|].
  simpl. now apply IH, step_push_order.
Qed.

(** C4. For every text, the diagnostics are those appended during the
    loop, none of which is for an unclosed delimiter, followed by exactly
    one unclosed-delimiter diagnostic per entry left on the stack, the
    entries taken in reverse push order: the stack lists its entries from
    the earliest opened to the latest opened, and the diagnostics list
    them reversed, the most recently pushed first. *)
Theorem unclosed_reported_in_reverse_push_order (text : string) :
  let st := loop initial_state text in
  scan text = errors st ++ map Unclosed (rev (stack st))
  /\ Forall (fun d => is_unclosed d = false) (errors st)
  /\ List.length (map Unclosed (rev (stack st))) = List.length (stack st)
  /\ StronglySorted opened_before (stack st)
  /\ StronglySorted (fun e1 e2 => opened_before e2 e1) (rev (stack st)).
Proof.
  intros st.
  assert (Hs : StronglySorted opened_before (stack st)).
  { apply (loop_push_order text initial_state). split; constructor. }
  repeat split.
  - apply loop_errors_kind. constructor.
  - now rewrite length_map, length_rev.
  - exact Hs.
  - clear -Hs. induction Hs as [|a l Hs IH Ha]; simpl; [constructor|].
    apply StronglySorted_snoc; [assumption|].
    apply Forall_rev. exact Ha.
Qed.

(** ** Delimiters inside strings and comments *)

Lemma inert_char_inv (r : ascii) :
  inert_char r = true ->
  delimiter_of r = None /\ (r =? newline)%char = false
  /\ (r =? double_quote)%char = false /\ (r =? backslash)%char = false.
Proof.
  unfold inert_char, is_delimiter. intros H.
  repeat (apply andb_prop in H as [H ?]).
  repeat match goal with
         | H : negb _ = true |- _ => apply negb_true_iff in H
         end.
  destruct (delimiter_of r); [discriminate|]. auto.
Qed.

Lemma is_delimiter_inv (ch : ascii) :
  is_delimiter ch = true ->
  exists k, ch = open_char k \/ ch = close_char k.
Proof.
  unfold is_delimiter.
  destruct (classify ch) as [k ->|k ->|Hd _ _]; [now exists k; left
                                                 |now exists k; right|].
  now rewrite Hd.
Qed.

(** Inside a string or a comment, a delimiter is read exactly as an inert
    character would be. *)
Lemma step_delimiter_as_inert (st : ScanState) (ch r : ascii)
    (rest rest' : string) :
  inert_char r = true ->
  in_string st = true \/ in_comment st = true ->
  is_delimiter ch = true ->
  step st ch rest = step st r rest'.
Proof.
  intros Hr Hm Hd.
  apply inert_char_inv in Hr as (_ & Hn & Hq & Hb).
  destruct st as [stk errs l c cf ins esc inc]. simpl in Hm. simpl.
  rewrite Hn, Hq, Hb.
  apply is_delimiter_inv in Hd as [k [-> | ->]];
    destruct k, ins, inc, esc; try reflexivity; destruct Hm; discriminate.
Qed.

(** The text after the character matters to a step only through the label
    it gives a form that opens with a parenthesis. *)
Lemma step_lookahead (st : ScanState) (ch : ascii) (rest rest' : string) :
  ((ch =? "(")%char = true ->
   describe_top_level_form rest (cur_line st)
   = describe_top_level_form rest' (cur_line st)) ->
  step st ch rest = step st ch rest'.
Proof.
  destruct st as [stk errs l c cf ins esc inc]. simpl. intros H.
  destruct (ch =? "(")%char; [now rewrite H|reflexivity].
Qed.

(** ** The Form Namer does not look inside strings, and crosses comments
       only up to their newline *)

Lemma skip_comment_shape (s : string) :
  skip_comment s = EmptyString
  \/ exists t, skip_comment s = String newline t.
Proof.
  induction s as [|ch rest IH]; [now left|]. simpl.
  destruct (Ascii.eqb_spec ch newline) as [->|_]; [right; now exists rest|].
  exact IH.
Qed.

Lemma WHITESPACE_inv (ch : ascii) :
  WHITESPACE ch = true ->
  (ch =? semicolon)%char = false /\ (ch =? double_quote)%char = false
  /\ delimiter_of ch = None.
Proof.
  unfold WHITESPACE. intros H.
  repeat (apply orb_prop in H as [H|H]);
    apply Ascii.eqb_eq in H; subst ch; now repeat split.
Qed.

Lemma delimiter_or_quote_false (ch : ascii) :
  delimiter_or_quote ch = false ->
  (ch =? double_quote)%char = false /\ delimiter_of ch = None.
Proof.
  unfold delimiter_or_quote, delimiter_of. intros H.
  repeat (apply orb_false_elim in H as [H ?]).
  split; [assumption|].
  repeat match goal with H : (_ =? _)%char = false |- _ => rewrite H; clear H
         end.
  reflexivity.
Qed.

Lemma lex_step_normal (ch : ascii) :
  (ch =? semicolon)%char = false -> (ch =? double_quote)%char = false ->
  lex_step Normal ch = Normal.
Proof.
  unfold lex_step. intros -> ->. now destruct (ch =? newline)%char.
Qed.

Section Masking.

Variable r : ascii.
Hypothesis r_inert : inert_char r = true.

Lemma skip_comment_mask (s : string) :
  skip_comment (mask_from r InComment s)
  = mask_from r InComment (skip_comment s).
Proof.
  destruct (inert_char_inv r r_inert) as (_ & Hn & _ & _).
  induction s as [|ch rest IH]; [reflexivity|].
  destruct (classify ch) as [k ->|k ->|Hd _ _].
  - destruct k; simpl; rewrite Hn; exact IH.
  - destruct k; simpl; rewrite Hn; exact IH.
  - simpl. unfold is_delimiter, lex_step. rewrite Hd.
    destruct (ch =? newline)%char eqn:E; [|exact IH].
    simpl. unfold is_delimiter, lex_step. now rewrite Hd, E.
Qed.

Lemma skip_space_and_comments_mask_bounded (n : nat) :
  forall s, String.length s <= n ->
    skip_space_and_comments (mask_from r Normal s)
    = mask_from r Normal (skip_space_and_comments s).
Proof.
  induction n as [|n IH]; intros [|ch rest] Hlen; try reflexivity;
    simpl in Hlen; [lia|].
  change (mask_from r Normal (String ch rest))
    with (String ch (mask_from r (lex_step Normal ch) rest)).
  rewrite !skip_space_and_comments_cons.
  destruct (WHITESPACE ch) eqn:Hw.
  - apply WHITESPACE_inv in Hw as (Hs & Hq & _).
    rewrite lex_step_normal by assumption. apply IH. lia.
  - destruct (Ascii.eqb_spec ch semicolon) as [->|_]; [|reflexivity].
    change (lex_step Normal semicolon) with InComment.
    change (skip_comment (String semicolon ?x)) with (skip_comment x).
    rewrite skip_comment_mask.
    pose proof (skip_comment_length rest) as Hl.
    destruct (skip_comment_shape rest) as [E|[t E]]; rewrite E in *.
    + reflexivity.
    + change (mask_from r InComment (String newline t))
        with (String newline (mask_from r Normal t)).
      rewrite !skip_space_and_comments_cons.
      change (WHITESPACE newline) with true. cbv iota.
      apply IH. simpl in Hl. lia.
Qed.

Lemma skip_space_and_comments_mask (s : string) :
  skip_space_and_comments (mask_from r Normal s)
  = mask_from r Normal (skip_space_and_comments s).
Proof. now apply (skip_space_and_comments_mask_bounded (String.length s)). Qed.

Lemma read_token_mask (s : string) :
  read_token (mask_from r Normal s)
  = (fst (read_token s), mask_from r Normal (snd (read_token s))).
Proof.
  induction s as [|ch rest IH]; [reflexivity|].
  change (mask_from r Normal (String ch rest))
    with (String ch (mask_from r (lex_step Normal ch) rest)).
  simpl.
  destruct (WHITESPACE ch); [reflexivity|]. simpl.
  destruct (delimiter_or_quote ch) eqn:Hd; [reflexivity|].
  destruct (ch =? semicolon)%char eqn:Hs; [reflexivity|].
  apply delimiter_or_quote_false in Hd as [Hq _].
  rewrite lex_step_normal by assumption. rewrite IH.
  now destruct (read_token rest).
Qed.

Lemma read_symbol_mask (s : string) :
  read_symbol (mask_from r Normal s)
  = (fst (read_symbol s), mask_from r Normal (snd (read_symbol s))).
Proof.
  unfold read_symbol. rewrite skip_space_and_comments_mask.
  destruct (skip_space_and_comments s) as [|ch rest]; [reflexivity|].
  change (mask_from r Normal (String ch rest))
    with (String ch (mask_from r (lex_step Normal ch) rest)).
  cbv beta iota zeta.
  destruct (delimiter_or_quote ch); [reflexivity|].
  change (String ch (mask_from r (lex_step Normal ch) rest))
    with (mask_from r Normal (String ch rest)).
  rewrite read_token_mask. now destruct (read_token (String ch rest)).
Qed.

Lemma describe_top_level_form_mask (s : string) (l : nat) :
  describe_top_level_form (mask_from r Normal s) l
  = describe_top_level_form s l.
Proof.
  unfold describe_top_level_form. rewrite read_symbol_mask.
  destruct (read_symbol s) as [symbol after]. simpl.
  rewrite read_symbol_mask. now destruct (read_symbol after).
Qed.

Lemma step_mask (st : ScanState) (ch : ascii) (rest : string) :
  step st
    (match mode_of st with
     | Normal => ch
     | _ => if is_delimiter ch then r else ch
     end)
    (mask_from r (lex_step (mode_of st) ch) rest)
  = step st ch rest.
Proof.
  destruct (mode_of st) eqn:Hm.
  - apply step_lookahead. intros E. apply Ascii.eqb_eq in E. subst ch.
    apply describe_top_level_form_mask.
  - assert (Hin : in_string st = true \/ in_comment st = true).
    { unfold mode_of in Hm. destruct (in_comment st); [now right|].
      destruct (in_string st); [now left|discriminate]. }
    destruct (is_delimiter ch) eqn:Hd.
    + symmetry. now apply step_delimiter_as_inert.
    + apply step_lookahead. intros E. apply Ascii.eqb_eq in E. now subst ch.
  - assert (Hin : in_string st = true \/ in_comment st = true).
    { unfold mode_of in Hm. destruct (in_comment st); [now right|].
      destruct (in_string st); [now left|discriminate]. }
    destruct (is_delimiter ch) eqn:Hd.
    + symmetry. now apply step_delimiter_as_inert.
    + apply step_lookahead. intros E. apply Ascii.eqb_eq in E. now subst ch.
Qed.

Lemma loop_mask (s : string) :
  forall st, coherent st ->
    loop st (mask_from r (mode_of st) s) = loop st s.
Proof.
  induction s as [|ch rest IH]; intros st Hc; [reflexivity|].
  simpl. rewrite step_mask.
  rewrite <- (step_mode st ch rest Hc).
  apply IH. now apply step_coherent.
Qed.

End Masking.

(** C5. A delimiter read inside a string literal or a line comment leaves
    the stack and the diagnostics as they were, and is read exactly as a
    character with no lexical role would be; hence for every text the
    final state of the scan, its stack and its diagnostics are those of
    the text in which every such delimiter is replaced by such a
    character. *)
Theorem delimiters_in_strings_and_comments_are_inert
    (r : ascii) (text : string) (st : ScanState) (ch : ascii)
    (rest : string) :
  inert_char r = true ->
  in_string st = true \/ in_comment st = true ->
  is_delimiter ch = true ->
  (stack (step st ch rest) = stack st
   /\ errors (step st ch rest) = errors st
   /\ step st ch rest = step st r rest)
  /\ stack (loop initial_state (mask r text))
     = stack (loop initial_state text)
  /\ errors (loop initial_state (mask r text))
     = errors (loop initial_state text)
  /\ scan (mask r text) = scan text.
Proof.
  intros Hr Hin Hd.
  assert (E : loop initial_state (mask r text) = loop initial_state text).
  { apply (loop_mask r Hr text initial_state initial_coherent). }
  repeat split.
  - apply step_not_normal. unfold mode_of.
    destruct Hin as [H|H]; rewrite H; [|discriminate].
    destruct (in_comment st); discriminate.
  - apply step_not_normal. unfold mode_of.
    destruct Hin as [H|H]; rewrite H; [|discriminate].
    destruct (in_comment st); discriminate.
  - now apply step_delimiter_as_inert.
  - now rewrite E.
  - now rewrite E.
  - unfold scan. now rewrite E.
Qed.

Lemma delimiters_in_strings_and_comments_are_inert_witness :
  mask "x" sample_text
  = ("(f " ++ String double_quote "xx" ++ String double_quote " ; x"
     ++ String newline ")")%string
  /\ scan (mask "x" sample_text) = scan sample_text.
Proof.
  split; [reflexivity|].
  apply (delimiters_in_strings_and_comments_are_inert
           "x" sample_text sample_string_state "(" "").
  - reflexivity.
  - left. reflexivity.
  - reflexivity.
Defined.

(** ** Closing delimiters *)

Lemma CLOSING_inv (ch expected_open : ascii) :
  CLOSING ch = Some expected_open ->
  exists k, ch = close_char k /\ expected_open = open_char k.
Proof.
  destruct (classify ch) as [k ->|k ->|_ _ Hc].
  - now destruct k.
  - rewrite CLOSING_close_char. intros [= <-]. now exists k.
  - now rewrite Hc.
Qed.

(** C6. A closing delimiter read outside strings and comments, when the
    stack is not empty and the opener of its top entry is not the one the
    closer expects: the step pops that entry, appends exactly one
    mismatch diagnostic (holding the closer, the expected opener, and the
    popped entry with its character, form label, line and column), sets
    the current form to top-level when the pop leaves the stack empty and
    leaves it alone otherwise, and the loop goes on with the rest of the
    text. *)
Theorem mismatched_close_pops_and_reports
    (st : ScanState) (ch expected_open : ascii) (rest : string)
    (below : list ParenEntry) (entry : ParenEntry) :
  in_string st = false -> in_comment st = false ->
  CLOSING ch = Some expected_open ->
  stack st = below ++ [entry] ->
  char entry <> expected_open ->
  let d := Mismatched (cur_line st) (cur_col st + 1) ch expected_open entry in
  step st ch rest
  = mkScanState below (errors st ++ [d]) (cur_line st) (cur_col st + 1)
      (if is_empty below then "top-level" else current_form st)
      false (escape st) false
  /\ loop st (String ch rest) = loop (step st ch rest) rest
  /\ forall path,
      render path d
      = (path ++ ":" ++ str_of_nat (cur_line st) ++ ":"
         ++ str_of_nat (cur_col st + 1)
         ++ " closing '" ++ str_of_char ch ++ "' expected to match '"
         ++ str_of_char expected_open ++ "' but last open was '"
         ++ str_of_char (char entry) ++ "' from " ++ form entry
         ++ " (line " ++ str_of_nat (line entry) ++ ", col "
         ++ str_of_nat (col entry) ++ ")")%string.
Proof.
  intros Hs Hc Hcl Hstk Hne d.
  split; [|split; reflexivity].
  apply CLOSING_inv in Hcl as (k & -> & ->).
  destruct st as [stk errs l c cf ins esc inc].
  simpl in Hs, Hc, Hstk. subst ins inc stk.
  rewrite step_close, pop_snoc.
  apply Ascii.eqb_neq in Hne. rewrite Hne.
  now destruct below.
Qed.

Lemma mismatched_close_pops_and_reports_witness :
  step sample_normal_state "]" ""
  = mkScanState []
      [Mismatched 1 5 "]" "[" (mkParenEntry "(" 1 1 "f form line 1")]
      1 5 "top-level" false false false.
Proof.
  apply (mismatched_close_pops_and_reports
           sample_normal_state "]" "[" "" []
           (mkParenEntry "(" 1 1 "f form line 1")).
  - reflexivity.
  - reflexivity.
  - reflexivity.
  - reflexivity.
  - discriminate.
Defined.

(** ** The label of the current form *)

Lemma OPENING_inv (ch : ascii) :
  is_key OPENING ch = true -> exists k, ch = open_char k.
Proof.
  unfold is_key.
  destruct (classify ch) as [k ->|k ->|_ Ho _].
  - now exists k.
  - now destruct k.
  - now rewrite Ho.
Qed.

(** C7. An opening delimiter read outside strings and comments pushes an
    entry that carries the current label; the label is recomputed by the
    Form Namer, from the text after the delimiter and the current line,
    exactly when the delimiter is an opening parenthesis and the stack is
    empty. A square bracket or a brace at depth zero, and any opening
    delimiter at greater depth, push the label unchanged. In every other
    step of the scan the text after the character is not consulted at
    all, and the label stays or is reset to top-level. *)
Theorem form_label_recomputed_only_at_top_level_paren
    (st : ScanState) (ch : ascii) (rest : string) :
  (in_string st = false -> in_comment st = false ->
   is_key OPENING ch = true ->
   let label :=
     if (ch =? "(")%char && is_empty (stack st)
     then describe_top_level_form rest (cur_line st)
     else current_form st in
   step st ch rest
   = mkScanState
       (stack st ++ [mkParenEntry ch (cur_line st) (cur_col st + 1) label])
       (errors st) (cur_line st) (cur_col st + 1) label
       false (escape st) false)
  /\ (in_string st || in_comment st
      || negb ((ch =? "(")%char && is_empty (stack st)) = true ->
      (forall rest', step st ch rest' = step st ch rest)
      /\ (current_form (step st ch rest) = current_form st
          \/ current_form (step st ch rest) = "top-level")).
Proof.
  split.
  - intros Hs Hc Ho label. subst label.
    apply OPENING_inv in Ho as [k ->].
    destruct st as [stk errs l c cf ins esc inc]. simpl in Hs, Hc.
    subst ins inc. rewrite step_open. simpl. now destruct stk.
  - intros H. split.
    + intros rest'.
      destruct st as [stk errs l c cf ins esc inc]. simpl in H.
      destruct (Ascii.eqb_spec ch "(") as [->|Hne].
      * destruct ins, inc, stk; try reflexivity; discriminate.
      * apply Ascii.eqb_neq in Hne. simpl. now rewrite Hne.
    + destruct (mode_of st) eqn:Hm.
      2,3: left; apply step_not_normal; rewrite Hm; discriminate.
      destruct (classify ch) as [k ->|k ->|_ Ho Hcl].
      3: left; now apply step_other.
      all: apply normal_flags in Hm as [Hic His];
        destruct st as [stk errs l c cf ins esc inc]; simpl in Hic, His;
        subst inc ins; simpl in H.
      * rewrite step_open. simpl. left.
        destruct ((open_char k =? "(")%char), stk; try reflexivity;
          discriminate.
      * rewrite step_close.
        destruct (pop stk) as [[stk' e]|]; simpl; [|now left].
        destruct stk'; [now right|now left].
Qed.

Lemma form_label_recomputed_only_at_top_level_paren_witness :
  step initial_state "(" "defn f [x]"
  = mkScanState [mkParenEntry "(" 1 1 "defn f"] [] 1 1 "defn f"
      false false false
  /\ step sample_normal_state "(" "defn f [x]"
     = mkScanState
         [mkParenEntry "(" 1 1 "f form line 1";
          mkParenEntry "(" 1 5 "f form line 1"]
         [] 1 5 "f form line 1" false false false
  /\ (forall rest',
        step sample_normal_state "(" rest'
        = step sample_normal_state "(" "defn f [x]").
Proof.
  split; [|split].
  - apply (proj1 (form_label_recomputed_only_at_top_level_paren
                    initial_state "(" "defn f [x]")); reflexivity.
  - apply (proj1 (form_label_recomputed_only_at_top_level_paren
                    sample_normal_state "(" "defn f [x]")); reflexivity.
  - apply (proj2 (form_label_recomputed_only_at_top_level_paren
                    sample_normal_state "(" "defn f [x]")). reflexivity.
Defined.

(** ** Strings that run over a newline *)

(** C10. A newline read inside a string literal adds one to the line,
    resets the column to zero, and leaves both the in-string flag and a
    pending escape as they were. Hence, inside a string, a backslash
    followed at once by a newline leaves the escape pending over the
    newline, and the first character of the next line is consumed as the
    escaped character, whatever it is: after it the scan is on the next
    line at column 1, still inside the string, with no escape pending. A
    double quote in that place does not end the string. *)
Theorem string_runs_over_newline
    (st : ScanState) (c : ascii) (rest rest' : string) :
  in_string st = true -> in_comment st = false ->
  (c =? newline)%char = false ->
  step st newline rest
  = mkScanState (stack st) (errors st) (cur_line st + 1) 0 (current_form st)
      true (escape st) false
  /\ (escape st = false ->
      step (step st backslash rest) newline rest
      = mkScanState (stack st) (errors st) (cur_line st + 1) 0
          (current_form st) true true false
      /\ loop st (String backslash (String newline (String c rest')))
         = loop (mkScanState (stack st) (errors st) (cur_line st + 1) 1
                   (current_form st) true false false) rest').
Proof.
  intros Hs Hc Hn.
  destruct st as [stk errs l c0 cf ins esc inc]. simpl in Hs, Hc.
  subst ins inc. split; [reflexivity|].
  simpl. intros ->. simpl. rewrite Hn. now split.
Qed.

Lemma string_runs_over_newline_witness :
  loop sample_string_state
    (String backslash (String newline (String double_quote "(")))
  = mkScanState [mkParenEntry "(" 1 1 "f form line 1"] [] 2 2
      "f form line 1" true false false.
Proof.
  apply (proj2 (string_runs_over_newline
                  sample_string_state double_quote "" "("
                  eq_refl eq_refl eq_refl)).
  reflexivity.
Defined.

(** ** The Form Namer *)

Lemma last_cons {A : Type} (l : list A) :
  forall a d, last (a :: l) d = last l a.
Proof.
  induction l as [|b l IH]; intros a d; [reflexivity|].
  change (last (a :: b :: l) d) with (last (b :: l) d).
  now rewrite !IH.
Qed.

Lemma trace_last (text : string) :
  forall st, last (trace st text) st = loop st text.
Proof.
  induction text as [|ch rest IH]; intros st; [reflexivity|].
  simpl trace. simpl loop. rewrite last_cons. apply IH.
Qed.

(** What [skip_space_and_comments] stops at is neither whitespace nor the
    start of a comment. *)
Lemma skip_space_and_comments_head_bounded (n : nat) :
  forall s ch rest,
    String.length s <= n ->
    skip_space_and_comments s = String ch rest ->
    WHITESPACE ch = false /\ (ch =? semicolon)%char = false.
Proof.
  induction n as [|n IH]; intros [|c s] ch rest Hlen; simpl in Hlen;
    try lia; try (now simp skip_space_and_comments).
  rewrite skip_space_and_comments_cons.
  destruct (WHITESPACE c) eqn:Hw.
  - apply IH. lia.
  - destruct (Ascii.eqb_spec c semicolon) as [->|Hne].
    + apply IH. change (skip_comment (String semicolon s))
        with (skip_comment s).
      pose proof (skip_comment_length s). lia.
    + intros [= <- <-]. split; [assumption|now apply Ascii.eqb_neq].
Qed.

Lemma skip_space_and_comments_head (s : string) (ch : ascii) (rest : string) :
  skip_space_and_comments s = String ch rest ->
  WHITESPACE ch = false /\ (ch =? semicolon)%char = false.
Proof. now apply (skip_space_and_comments_head_bounded (String.length s)). Qed.

(** [read_token] splits the text into the longest run of symbol characters
    at its head and what follows. *)
Lemma read_token_spec (s : string) :
  let (tok, after) := read_token s in
  s = (tok ++ after)%string
  /\ all_chars symbol_char tok = true
  /\ match after with
     | EmptyString => True
     | String ch _ => symbol_char ch = false
     end.
Proof.
  induction s as [|ch rest IH]; simpl; [now repeat split|].
  unfold symbol_char at 2.
  destruct (WHITESPACE ch) eqn:Hw; simpl.
  - repeat split. unfold symbol_char. now rewrite Hw.
  - destruct (delimiter_or_quote ch) eqn:Hd; simpl.
    + repeat split. unfold symbol_char. now rewrite Hw, Hd.
    + destruct (ch =? semicolon)%char eqn:Hs; simpl.
      * repeat split. unfold symbol_char. now rewrite Hw, Hd, Hs.
      * destruct (read_token rest) as [tok after].
        destruct IH as (-> & Hall & Hafter). simpl.
        unfold symbol_char at 1. now rewrite Hw, Hd, Hs.
Qed.

(** A symbol that was read is never empty. *)
Lemma read_symbol_truthy (s symbol after : string) :
  read_symbol s = (Some symbol, after) -> truthy (Some symbol) = true.
Proof.
  unfold read_symbol.
  destruct (skip_space_and_comments s) as [|ch rest] eqn:E; [discriminate|].
  apply skip_space_and_comments_head in E as [Hw Hs].
  destruct (delimiter_or_quote ch) eqn:Hd; [discriminate|].
  simpl. rewrite Hw, Hd, Hs. simpl.
  destruct (read_token rest). now intros [= <- _].
Qed.

Lemma read_symbol_None (s : string) :
  fst (read_symbol s) = None <->
  skip_space_and_comments s = EmptyString
  \/ exists ch rest,
       skip_space_and_comments s = String ch rest
       /\ delimiter_or_quote ch = true.
Proof.
  unfold read_symbol.
  destruct (skip_space_and_comments s) as [|ch rest] eqn:E.
  - split; [now left|reflexivity].
  - destruct (delimiter_or_quote ch) eqn:Hd.
    + split; [|reflexivity]. intros _. right. now exists ch, rest.
    + destruct (read_token (String ch rest)). simpl.
      split; [discriminate|].
      intros [H|(ch' & rest' & [= <- <-] & H)]; [discriminate|].
      congruence.
Qed.

(** C8. The Form Namer, given the text after a top-level opening
    parenthesis and the current line: when no symbol is found (the text,
    once whitespace and comments are skipped, has ended or stands at a
    delimiter or a double quote) it returns form starting line N; when
    the first symbol is one of the definition keywords or ns and a second
    symbol follows, it returns the keyword, a space, and that name; in
    every other case it returns the symbol followed by form line N. On
    the text of the fourth example the label in force from the second
    opening parenthesis on is defrecord Point, and the scan reports
    nothing. *)
Theorem describe_top_level_form_cases (s : string) (n : nat) :
  (fst (read_symbol s) = None <->
   skip_space_and_comments s = EmptyString
   \/ exists ch rest,
        skip_space_and_comments s = String ch rest
        /\ delimiter_or_quote ch = true)
  /\ (fst (read_symbol s) = None ->
      describe_top_level_form s n
      = ("form starting line " ++ str_of_nat n)%string)
  /\ (forall symbol after name after',
        read_symbol s = (Some symbol, after) ->
        in_DEF_LIKE symbol || (symbol =? "ns")%string = true ->
        read_symbol after = (Some name, after') ->
        describe_top_level_form s n = (symbol ++ " " ++ name)%string)
  /\ (forall symbol after,
        read_symbol s = (Some symbol, after) ->
        in_DEF_LIKE symbol || (symbol =? "ns")%string = false
        \/ fst (read_symbol after) = None ->
        describe_top_level_form s n
        = (symbol ++ " form line " ++ str_of_nat n)%string)
  /\ nth_error
       (map current_form
          (trace initial_state "(ns my.app) (defrecord Point [x y])")) 12
     = Some "defrecord Point"
  /\ scan "(ns my.app) (defrecord Point [x y])" = [].
Proof.
  split; [apply read_symbol_None|].
  split; [|split; [|split; [|split; vm_compute; reflexivity]]].
  - unfold describe_top_level_form.
    destruct (read_symbol s) as [[symbol|] after]; simpl; [discriminate|].
    reflexivity.
  - intros symbol after name after' Hsym Hdef Hname.
    unfold describe_top_level_form. rewrite Hsym.
    rewrite (read_symbol_truthy _ _ _ Hsym). simpl.
    rewrite Hdef, Hname.
    now rewrite (read_symbol_truthy _ _ _ Hname).
  - intros symbol after Hsym Hother.
    unfold describe_top_level_form. rewrite Hsym.
    rewrite (read_symbol_truthy _ _ _ Hsym). simpl.
    destruct Hother as [-> | Hnone]; [reflexivity|].
    destruct (in_DEF_LIKE symbol || (symbol =? "ns")%string);
      [|reflexivity].
    destruct (read_symbol after) as [[name|] after']; [discriminate|].
    reflexivity.
Qed.

Lemma describe_top_level_form_cases_witness :
  describe_top_level_form "defrecord Point [x y])" 1 = "defrecord Point"
  /\ describe_top_level_form "println x)" 7 = "println form line 7"
  /\ describe_top_level_form "defn )" 7 = "defn form line 7"
  /\ describe_top_level_form " [x])" 7 = "form starting line 7".
Proof.
  split; [|split; [|split]].
  - apply (proj1 (proj2 (proj2 (describe_top_level_form_cases
                                  "defrecord Point [x y])" 1)))
             "defrecord" " Point [x y])" "Point" " [x y])");
      reflexivity.
  - apply (proj1 (proj2 (proj2 (proj2 (describe_top_level_form_cases
                                         "println x)" 7))))
             "println" " x)").
    + reflexivity.
    + left. reflexivity.
  - apply (proj1 (proj2 (proj2 (proj2 (describe_top_level_form_cases
                                         "defn )" 7))))
             "defn" " )").
    + reflexivity.
    + right. reflexivity.
  - apply (proj1 (proj2 (describe_top_level_form_cases " [x])" 7))).
    reflexivity.
Defined.

(** ** File discovery *)

Lemma extension_orders_are_the_set :
  Forall (fun order => Permutation order SIGNIFICANT_EXTENSIONS)
         extension_orders.
Proof.
  unfold extension_orders, SIGNIFICANT_EXTENSIONS.
  repeat (apply Forall_cons; [|]); [..|apply Forall_nil].
  - apply Permutation_refl.
  - apply perm_skip, perm_swap.
  - apply perm_swap.
  - eapply perm_trans; [apply perm_skip, perm_swap|apply perm_swap].
  - eapply perm_trans; [apply perm_swap|apply perm_skip, perm_swap].
  - eapply perm_trans; [apply perm_swap|].
    eapply perm_trans; [apply perm_skip, perm_swap|apply perm_swap].
Qed.

Lemma path_leb_total (a : Path) :
  forall b, path_leb a b = false -> path_leb b a = true.
Proof.
  induction a as [|x a IH]; intros [|y b]; simpl; try discriminate;
    try reflexivity.
  rewrite (String.compare_antisym y x).
  destruct (String.compare x y); simpl; try discriminate; try reflexivity.
  apply IH.
Qed.

Lemma insert_sorted_in_order (p : Path) (l : list Path) :
  in_path_order l = true -> in_path_order (insert_sorted p l) = true.
Proof.
  induction l as [|q l IH]; intros H; [reflexivity|].
  simpl. destruct (path_leb p q) eqn:E.
  - simpl. simpl in H. now rewrite E, H.
  - apply path_leb_total in E. simpl in H.
    destruct l as [|q' l].
    + simpl. now rewrite E.
    + apply andb_prop in H as [H1 H2]. specialize (IH H2).
      simpl in IH |- *. destruct (path_leb p q') eqn:E'.
      * simpl. rewrite E, E'. simpl. exact H2.
      * change (in_path_order (q :: q' :: insert_sorted p l) = true).
        simpl. rewrite H1. simpl. exact IH.
Qed.

(** What the code does sort: the matches of one extension. *)
Lemma sorted_in_order (l : list Path) : in_path_order (sorted l) = true.
Proof.
  induction l as [|p l IH]; [reflexivity|].
  simpl. now apply insert_sorted_in_order.
Qed.

(** C9, on the code: the expansion of one directory holding [b.clj] and
    [a.cljs]. Visiting the extensions in the order clj, cljc, cljs puts
    [b.clj] before [a.cljs], which is not lexicographic order; visiting
    them in the order cljs, cljc, clj gives the other list. And whatever
    the visiting order, there is a directory whose expansion is not in
    lexicographic order. *)
Theorem gather_files_order_follows_set_iteration :
  gather_files (directory_of ["b.clj"; "a.cljs"]) single_part
               [".clj"; ".cljc"; ".cljs"] ["src"]
  = ([["src"; "b.clj"]; ["src"; "a.cljs"]], [])
  /\ in_path_order [["src"; "b.clj"]; ["src"; "a.cljs"]] = false
  /\ gather_files (directory_of ["b.clj"; "a.cljs"]) single_part
                  [".cljs"; ".cljc"; ".clj"] ["src"]
     = ([["src"; "a.cljs"]; ["src"; "b.clj"]], [])
  /\ Forall
       (fun order =>
          in_path_order
            (fst (gather_files (directory_of (out_of_order_names order))
                               single_part order ["src"]))
          = false)
       extension_orders.
Proof.
  repeat split; try (vm_compute; reflexivity).
  repeat constructor.
Qed.

(** * Further properties of the code *)

(** ** What every state of a scan satisfies *)

(** A property that the initial state has and every step keeps holds in
    every state the loop goes through. *)
Lemma trace_invariant (P : ScanState -> Prop) :
  (forall st ch rest, P st -> P (step st ch rest)) ->
  forall text st, P st -> Forall P (trace st text).
Proof.
  intros Hstep. induction text as [|ch rest IH]; intros st H; simpl.
  - constructor.
  - constructor; [now apply Hstep|]. now apply IH, Hstep.
Qed.

(** X1. In every state a scan goes through, the comment flag and the
    string flag are never set together, and an escape is pending only
    inside a string. *)
Theorem flags_exclusive_throughout (text : string) :
  Forall (fun st =>
            (in_comment st = true -> in_string st = false)
            /\ (escape st = true -> in_string st = true))
         (trace initial_state text).
Proof.
  apply (trace_invariant coherent).
  - intros st ch rest. apply step_coherent.
  - exact initial_coherent.
Qed.

Lemma count_char_positive (s : string) :
  (0 <? count_char newline s)%nat = false -> count_char newline s = 0.
Proof. intros H. apply Nat.ltb_ge in H. lia. Qed.

Lemma loop_position (text : string) :
  forall st,
    cur_line (loop st text) = cur_line st + count_char newline text
    /\ cur_col (loop st text)
       = if (0 <? count_char newline text)%nat
         then String.length (last_line text)
         else cur_col st + String.length text.
Proof.
  induction text as [|ch rest IH]; intros st.
  - simpl. split; lia.
  - simpl loop. destruct (IH (step st ch rest)) as [Hl Hc].
    pose proof (step_position st ch rest) as Hp.
    rewrite Hl, Hc. simpl count_char. simpl last_line.
    destruct (ch =? newline)%char; injection Hp as -> ->.
    + split; [lia|].
      destruct ((0 <? count_char newline rest)%nat) eqn:E.
      * now replace ((0 <? 1 + count_char newline rest)%nat) with true
          by (symmetry; apply Nat.ltb_lt; lia).
      * apply count_char_positive in E. rewrite E. simpl. lia.
    + split; [lia|]. simpl.
      destruct ((0 <? count_char newline rest)%nat); simpl; lia.
Qed.

(** X2. After a scan the line counter is one more than the number of
    newlines of the text, and the column counter is the number of
    characters after the last newline (of the whole text when it has
    none). *)
Theorem final_position (text : string) :
  cur_line (loop initial_state text) = 1 + count_char newline text
  /\ cur_col (loop initial_state text) = String.length (last_line text).
Proof.
  destruct (loop_position text initial_state) as [Hl Hc].
  split; [exact Hl|]. rewrite Hc.
  destruct ((0 <? count_char newline text)%nat) eqn:E; [reflexivity|].
  apply count_char_positive in E. clear -E.
  induction text as [|ch rest IH]; [reflexivity|].
  simpl in E. simpl last_line.
  destruct (ch =? newline)%char; [discriminate|].
  simpl in E. rewrite E. reflexivity.
Qed.

Lemma step_case (st : ScanState) (ch : ascii) (rest : string) :
  StepCase st ch rest.
Proof.
  destruct (mode_of st) eqn:Hm.
  2,3: destruct (step_not_normal st ch rest) as (Hs & He & Hf);
       [rewrite Hm; discriminate|];
       apply StepQuiet; try assumption;
       rewrite Hm; now apply tokens_of_not_normal.
  destruct (classify ch) as [k ->|k ->|Hd Ho Hcl].
  3: destruct (step_other st ch rest Ho Hcl) as (Hs & He & Hf);
     apply StepQuiet; try assumption; rewrite Hm;
     now apply tokens_of_other.
  all: pose proof Hm as Hflags; apply normal_flags in Hflags as [Hic His];
    destruct st as [stk errs l c cf ins esc inc]; simpl in Hic, His;
    subst inc ins.
  - apply (StepPush _ _ _ k); try rewrite step_open; try reflexivity.
    unfold tokens_of. rewrite Hm. now rewrite delimiter_of_open_char.
  - assert (Ht : tokens_of
                   (mode_of (mkScanState stk errs l c cf false esc false))
                   (close_char k) = [Close k]).
    { unfold tokens_of. rewrite Hm. now rewrite delimiter_of_close_char. }
    destruct (pop stk) as [[below e]|] eqn:Hp.
    + apply pop_Some_inv in Hp as Hstk.
      apply (StepPop _ _ _ k below e); try rewrite step_close, Hp;
        try reflexivity; assumption.
    + apply pop_None_inv in Hp as Hstk.
      apply (StepUnexpected _ _ _ k); try rewrite step_close, Hp;
        try reflexivity; assumption.
Qed.

Lemma loop_line_positive (st : ScanState) (ch : ascii) (rest : string) :
  1 <= cur_line st -> 1 <= cur_line (step st ch rest).
Proof.
  intros H. pose proof (step_position st ch rest) as Hp.
  destruct (ch =? newline)%char; injection Hp as -> _; lia.
Qed.

Lemma step_well_formed (st : ScanState) (ch : ascii) (rest : string) :
  1 <= cur_line st /\ Forall well_formed_entry (stack st) ->
  1 <= cur_line (step st ch rest)
  /\ Forall well_formed_entry (stack (step st ch rest)).
Proof.
  intros [Hl Hs]. split; [now apply loop_line_positive|].
  destruct (step_case st ch rest)
    as [_ E _ _|k -> _ E _ _|k _ _ _ E _ _|k below e _ _ Hstk E _ _];
    rewrite E.
  - exact Hs.
  - apply Forall_app. split; [exact Hs|].
    constructor; [|constructor]. unfold well_formed_entry. simpl.
    repeat split; [now destruct k|assumption|lia].
  - constructor.
  - rewrite Hstk in Hs. now apply Forall_app in Hs as [Hs _].
Qed.

Lemma in_scan_unclosed (text : string) (e : ParenEntry) :
  In (Unclosed e) (scan text) -> In e (stack (loop initial_state text)).
Proof.
  unfold scan. intros H. apply in_app_or in H as [H|H].
  - pose proof (loop_errors_kind text initial_state (Forall_nil _)) as Hk.
    rewrite Forall_forall in Hk. now specialize (Hk _ H).
  - apply in_map_iff in H as (e' & [= ->] & H). now apply in_rev.
Qed.

(** X3. Every entry on the stack, in every state of a scan, holds one of
    the three opening delimiters and a line and a column that are at
    least 1; so does every entry reported as never closed. *)
Theorem stack_entries_well_formed (text : string) :
  Forall (fun st => Forall well_formed_entry (stack st))
         (trace initial_state text)
  /\ (forall e, In (Unclosed e) (scan text) -> well_formed_entry e).
Proof.
  assert (H0 : 1 <= cur_line initial_state
               /\ Forall well_formed_entry (stack initial_state)).
  { split; [simpl; lia|constructor]. }
  split.
  - eapply Forall_impl;
      [|apply (trace_invariant _ step_well_formed text _ H0)].
    now intros st [_ H].
  - intros e He. apply in_scan_unclosed in He.
    pose proof (trace_invariant _ step_well_formed text _ H0) as Ht.
    assert (Hl : 1 <= cur_line (loop initial_state text)
                 /\ Forall well_formed_entry
                      (stack (loop initial_state text))).
    { rewrite <- trace_last.
      destruct (trace initial_state text) as [|s0 l] eqn:E; [exact H0|].
      rewrite Forall_forall in Ht. apply Ht.
      destruct (@exists_last _ (s0 :: l)) as (l' & x & Hx); [discriminate|].
      rewrite Hx. rewrite last_last. apply in_or_app. right. now left. }
    destruct Hl as [_ Hl]. rewrite Forall_forall in Hl. now apply Hl.
Qed.

Lemma loop_invariant (P : ScanState -> Prop) :
  (forall st ch rest, P st -> P (step st ch rest)) ->
  forall text st, P st -> P (loop st text).
Proof.
  intros Hstep. induction text as [|ch rest IH]; intros st H; [exact H|].
  simpl. now apply IH, Hstep.
Qed.

Lemma step_labels_agree (st : ScanState) (ch : ascii) (rest : string) :
  labels_agree st -> labels_agree (step st ch rest).
Proof.
  unfold labels_agree. intros [Hf Hn].
  destruct (step_case st ch rest)
    as [_ Es _ Ec|k -> _ Es _ Ec|k _ _ Hstk Es _ Ec
        |k below e _ _ Hstk Es _ Ec].
  - rewrite Es, Ec. now split.
  - rewrite Es. split.
    + apply Forall_app. split; [|now repeat constructor].
      rewrite Ec. destruct (stack st) as [|e0 stk]; [constructor|].
      now rewrite andb_false_r.
    + intros H. now apply app_eq_nil in H as [_ H].
  - rewrite Es, Ec. split; [constructor|]. intros _. now apply Hn.
  - rewrite Es, Ec. rewrite Hstk in Hf. apply Forall_app in Hf as [Hf _].
    destruct below as [|e0 below]; simpl.
    + split; [constructor|reflexivity].
    + split; [exact Hf|discriminate].
Qed.

Lemma initial_labels_agree : labels_agree initial_state.
Proof. split; [constructor|reflexivity]. Qed.

(** X4. In every state of a scan all open delimiters carry the label of
    the current form, and with nothing open that label is top-level.
    Hence all the delimiters one scan reports as never closed are
    attributed to one and the same form. *)
Theorem open_delimiters_share_the_current_label (text : string) :
  Forall labels_agree (trace initial_state text)
  /\ (forall e, In (Unclosed e) (scan text) ->
        form e = current_form (loop initial_state text)).
Proof.
  split.
  - apply (trace_invariant labels_agree step_labels_agree).
    exact initial_labels_agree.
  - intros e He. apply in_scan_unclosed in He.
    destruct (loop_invariant labels_agree step_labels_agree text _
                initial_labels_agree) as [Hf _].
    rewrite Forall_forall in Hf. now apply Hf.
Qed.

(** ** Scanning a text in two parts *)

Lemma loop_app (w : string) :
  forall st tail,
    loop st (w ++ tail)%string = loop (loop_prefix st w tail) tail.
Proof.
  induction w as [|ch rest IH]; intros st tail; [reflexivity|].
  simpl. apply IH.
Qed.

Lemma loop_prefix_coherent (w : string) :
  forall st tail, coherent st -> coherent (loop_prefix st w tail).
Proof.
  induction w as [|ch rest IH]; intros st tail H; [exact H|].
  simpl. now apply IH, step_coherent.
Qed.

Lemma loop_prefix_mode (w : string) :
  forall st tail, coherent st ->
    structural_from (mode_of st) (w ++ tail)%string
    = structural_from (mode_of st) w
      ++ structural_from (mode_of (loop_prefix st w tail)) tail.
Proof.
  induction w as [|ch rest IH]; intros st tail H; [reflexivity|].
  change ((String ch rest ++ tail)%string)
    with (String ch (rest ++ tail)%string).
  rewrite !structural_from_cons. rewrite <- app_assoc. f_equal.
  rewrite <- (step_mode st ch (rest ++ tail)%string H).
  simpl loop_prefix. apply IH. now apply step_coherent.
Qed.

(** A stretch of text whose delimiters close what stands on top of the
    stack, and nothing more, removes exactly that and reports nothing. *)
Lemma loop_prefix_unwinds (w : string) :
  forall st tail base extra,
    coherent st ->
    stack st = base ++ extra ->
    balanced_from (open_chars extra) (structural_from (mode_of st) w) = true ->
    stack (loop_prefix st w tail) = base
    /\ errors (loop_prefix st w tail) = errors st.
Proof.
  induction w as [|ch rest IH]; intros st tail base extra Hc Hstk Hb.
  - simpl in *. destruct extra as [|e extra] using rev_ind.
    + now rewrite app_nil_r in Hstk.
    + rewrite open_chars_snoc in Hb. discriminate.
  - rewrite structural_from_cons in Hb. simpl loop_prefix.
    pose proof (step_coherent st ch (rest ++ tail)%string Hc) as Hc'.
    pose proof (step_mode st ch (rest ++ tail)%string Hc) as Hm.
    rewrite <- Hm in Hb.
    destruct (step_case st ch (rest ++ tail)%string)
      as [Et Es Ee _|k -> Et Es Ee _|k _ Et Hnil _ _ _
          |k below e _ Et Hpop Es Ee _]; rewrite Et in Hb; simpl in Hb.
    + rewrite <- Ee. apply (IH _ tail base extra Hc'); [|exact Hb].
      now rewrite Es.
    + rewrite <- Ee.
      apply (IH _ tail base
               (extra ++ [mkParenEntry (open_char k) (cur_line st)
                            (cur_col st + 1)
                            (current_form
                               (step st (open_char k)
                                  (rest ++ tail)%string))]) Hc').
      * rewrite Es, Hstk. now rewrite app_assoc.
      * now rewrite open_chars_snoc.
    + rewrite Hnil in Hstk. symmetry in Hstk.
      apply app_eq_nil in Hstk as [_ ->]. discriminate.
    + destruct extra as [|e' extra] using rev_ind; [discriminate|].
      rewrite open_chars_snoc in Hb. apply andb_prop in Hb as [Hk Hb].
      rewrite app_assoc in Hstk. rewrite Hpop in Hstk.
      apply app_inj_tail in Hstk as [Hbelow <-].
      rewrite Hk in Ee. rewrite <- Ee.
      apply (IH _ tail base extra Hc'); [|exact Hb].
      now rewrite Es.
Qed.

(** X5. A stretch of text whose delimiters outside strings and comments
    are balanced, read from any coherent state and whatever text follows
    it, leaves the stack and the diagnostics exactly as they were. *)
Theorem balanced_stretch_leaves_stack_and_errors
    (st : ScanState) (w tail : string) :
  coherent st ->
  Balanced (structural_from (mode_of st) w) ->
  stack (loop_prefix st w tail) = stack st
  /\ errors (loop_prefix st w tail) = errors st
  /\ loop st (w ++ tail)%string = loop (loop_prefix st w tail) tail.
Proof.
  intros Hc Hb. apply balanced_from_iff in Hb.
  destruct (loop_prefix_unwinds w st tail (stack st) [] Hc) as [Hs He].
  - now rewrite app_nil_r.
  - exact Hb.
  - repeat split; try assumption. apply loop_app.
Qed.

Lemma balanced_stretch_leaves_stack_and_errors_witness :
  stack (loop_prefix sample_normal_state "[a {b} (c)]" " x)")
  = stack sample_normal_state
  /\ errors (loop_prefix sample_normal_state "[a {b} (c)]" " x)")
     = errors sample_normal_state.
Proof.
  destruct (balanced_stretch_leaves_stack_and_errors
              sample_normal_state "[a {b} (c)]" " x)") as (Hs & He & _).
  - split; discriminate.
  - apply balanced_from_iff. reflexivity.
  - split; assumption.
Defined.

Lemma mode_after_prefix (w : string) :
  forall st st' tail,
    coherent st -> coherent st' -> mode_of st = mode_of st' ->
    mode_of (loop_prefix st w tail) = mode_of (loop st' w).
Proof.
  induction w as [|ch rest IH]; intros st st' tail Hc Hc' Hm; [exact Hm|].
  simpl. apply IH; try now apply step_coherent.
  rewrite !step_mode by assumption. now rewrite Hm.
Qed.

Lemma scan_nil_iff (text : string) :
  scan text = [] <-> balanced_from [] (structural text) = true.
Proof. apply (scan_from_clean text initial_state initial_coherent). Qed.

(** X6. Putting a balanced text that ends outside strings and comments in
    front of another text does not change whether diagnostics are
    reported: the whole is free of diagnostics exactly when the second
    text alone is. *)
Theorem balanced_prefix_does_not_matter (w tail path : string) :
  Balanced (structural w) ->
  mode_of (loop initial_state w) = Normal ->
  (check_file path (ReadOk (w ++ tail)%string) = [] <->
   check_file path (ReadOk tail) = []).
Proof.
  intros Hb Hm.
  assert (E : structural (w ++ tail)%string = structural w ++ structural tail).
  { unfold structural.
    pose proof (loop_prefix_mode w initial_state tail initial_coherent) as H.
    rewrite (mode_after_prefix w initial_state initial_state tail
               initial_coherent initial_coherent eq_refl) in H.
    rewrite Hm in H. exact H. }
  assert (N : forall t, check_file path (ReadOk t) = [] <-> scan t = []).
  { intros t. simpl. destruct (scan t); simpl; split;
      try reflexivity; discriminate. }
  rewrite !N, !scan_nil_iff, E.
  now rewrite (balanced_from_app _ Hb).
Qed.

Lemma balanced_prefix_does_not_matter_witness :
  check_file "core.clj" (ReadOk ("(ns app) " ++ "(f [x)")%string) = [] <->
  check_file "core.clj" (ReadOk "(f [x)") = [].
Proof.
  apply (balanced_prefix_does_not_matter "(ns app) " "(f [x)" "core.clj").
  - apply balanced_from_iff. reflexivity.
  - reflexivity.
Defined.

(** ** How many diagnostics, and in which order they come *)

Lemma scan_from_length (s : string) :
  forall st, coherent st ->
    List.length (scan_from st s)
    <= List.length (errors st) + List.length (stack st)
       + List.length (structural_from (mode_of st) s).
Proof.
  induction s as [|ch rest IH]; intros st Hc.
  - unfold scan_from. simpl.
    rewrite length_app, length_map, length_rev. lia.
  - change (scan_from st (String ch rest))
      with (scan_from (step st ch rest) rest).
    specialize (IH _ (step_coherent st ch rest Hc)).
    rewrite (step_mode st ch rest Hc) in IH.
    rewrite structural_from_cons, length_app.
    destruct (step_case st ch rest)
      as [Et Es Ee _|k _ Et Es Ee _|k _ Et _ Es Ee _
          |k below e _ Et Hpop Es Ee _];
      rewrite Et; rewrite Es, Ee in IH; simpl.
    + lia.
    + rewrite length_app in IH. simpl in IH. lia.
    + rewrite length_app in IH. simpl in IH.
      destruct (stack st); simpl in *; lia.
    + rewrite Hpop, length_app. simpl.
      destruct (Ascii.eqb (char e) (open_char k));
        [|rewrite length_app in IH; simpl in IH]; lia.
Qed.

(** X7. A scan never reports more diagnostics than the text has
    delimiters outside strings and comments; a text with none there is
    reported clean. *)
Theorem diagnostics_bounded_by_delimiters (path text : string) :
  List.length (check_file path (ReadOk text))
  <= List.length (structural text)
  /\ (structural text = [] -> check_file path (ReadOk text) = []).
Proof.
  assert (H : List.length (check_file path (ReadOk text))
              <= List.length (structural text)).
  { simpl. rewrite length_map.
    apply (scan_from_length text initial_state initial_coherent). }
  split; [exact H|].
  intros E. rewrite E in H.
  destruct (check_file path (ReadOk text)); [reflexivity|simpl in H; lia].
Qed.

Lemma loop_errors_grow (s : string) :
  forall st, is_prefix (errors st) (errors (loop st s)).
Proof.
  induction s as [|ch rest IH]; intros st.
  - exists []. now rewrite app_nil_r.
  - simpl. destruct (IH (step st ch rest)) as [more Hmore].
    destruct (step_shape st ch rest) as (new & Hnew & _).
    exists (new ++ more). rewrite Hmore, Hnew. now rewrite app_assoc.
Qed.

(** X8. Diagnostics are only ever added at the end: what the loop has
    collected after any first part of a text is an initial segment of
    what [check_file] returns for the whole text. *)
Theorem diagnostics_are_never_withdrawn (path w tail : string) :
  is_prefix
    (map (render path) (errors (loop_prefix initial_state w tail)))
    (check_file path (ReadOk (w ++ tail)%string)).
Proof.
  simpl. unfold scan. rewrite loop_app.
  destruct (loop_errors_grow tail (loop_prefix initial_state w tail))
    as [more Hmore].
  rewrite Hmore. rewrite <- app_assoc, map_app.
  now eexists.
Qed.

(** ** The helpers of the Form Namer *)

(** X9. [skip_comment] moves forward only, over characters that are not
    newlines, and stops at the first newline or at the end of the text;
    applying it again changes nothing. *)
Theorem skip_comment_stops_at_newline (s : string) :
  (exists skipped,
      s = (skipped ++ skip_comment s)%string
      /\ count_char newline skipped = 0)
  /\ (skip_comment s = EmptyString
      \/ exists t, skip_comment s = String newline t)
  /\ skip_comment (skip_comment s) = skip_comment s.
Proof.
  split; [|split; [apply skip_comment_shape|]].
  - induction s as [|ch rest IH]; [now exists EmptyString|].
    simpl. destruct (ch =? newline)%char eqn:E.
    + now exists EmptyString.
    + destruct IH as (skipped & Hs & Hn).
      exists (String ch skipped). simpl. rewrite E, Hn.
      split; [now rewrite <- Hs|reflexivity].
  - induction s as [|ch rest IH]; [reflexivity|].
    simpl. destruct (ch =? newline)%char eqn:E; [|exact IH].
    simpl. now rewrite E.
Qed.

Lemma structural_in_comment (s : string) :
  structural_from InComment s = structural_from InComment (skip_comment s).
Proof.
  induction s as [|ch rest IH]; [reflexivity|].
  simpl. unfold lex_step.
  destruct (ch =? newline)%char eqn:E; [|exact IH].
  simpl. unfold lex_step. now rewrite E.
Qed.

Lemma skip_space_and_comments_bounded (n : nat) :
  forall s, String.length s <= n ->
    (exists skipped, s = (skipped ++ skip_space_and_comments s)%string)
    /\ structural (skip_space_and_comments s) = structural s
    /\ skip_space_and_comments (skip_space_and_comments s)
       = skip_space_and_comments s.
Proof.
  induction n as [|n IH]; intros [|ch rest] Hlen; simpl in Hlen; try lia;
    try (simp skip_space_and_comments; repeat split; now exists EmptyString).
  rewrite skip_space_and_comments_cons.
  destruct (WHITESPACE ch) eqn:Hw.
  - destruct (IH rest) as ((skipped & Hs) & Ht & Hi); [lia|].
    apply WHITESPACE_inv in Hw as (Hsemi & Hq & Hd).
    repeat split.
    + exists (String ch skipped). simpl. now rewrite <- Hs.
    + rewrite Ht. unfold structural. simpl. rewrite Hd.
      now rewrite lex_step_normal.
    + exact Hi.
  - destruct (Ascii.eqb_spec ch semicolon) as [->|Hne].
    + change (skip_comment (String semicolon rest)) with (skip_comment rest).
      pose proof (skip_comment_length rest) as Hl.
      destruct (IH (skip_comment rest)) as ((skipped & Hs) & Ht & Hi); [lia|].
      destruct (skip_comment_stops_at_newline rest)
        as ((before & Hb & _) & _ & _).
      repeat split.
      * exists (String semicolon (before ++ skipped)%string). simpl.
        f_equal. rewrite Hb at 1. rewrite Hs at 1.
        clear. induction before as [|c b IHb]; [reflexivity|].
        simpl. now rewrite IHb.
      * rewrite Ht. unfold structural.
        change (structural_from Normal (String semicolon rest))
          with (structural_from InComment rest).
        rewrite (structural_in_comment rest).
        destruct (skip_comment_shape rest) as [E|[t E]]; rewrite E;
          reflexivity.
      * exact Hi.
    + apply Ascii.eqb_neq in Hne. repeat split.
      * now exists EmptyString.
      * rewrite skip_space_and_comments_cons. now rewrite Hw, Hne.
Qed.

(** X10. [skip_space_and_comments] moves forward only, stops at a
    character that is neither whitespace nor a semicolon (or at the end),
    skips no delimiter the scanner would count, and applying it again
    changes nothing. *)
Theorem skip_space_and_comments_spec (s : string) :
  (exists skipped, s = (skipped ++ skip_space_and_comments s)%string)
  /\ match skip_space_and_comments s with
     | EmptyString => True
     | String ch _ => WHITESPACE ch = false /\ (ch =? semicolon)%char = false
     end
  /\ structural (skip_space_and_comments s) = structural s
  /\ skip_space_and_comments (skip_space_and_comments s)
     = skip_space_and_comments s.
Proof.
  destruct (skip_space_and_comments_bounded (String.length s) s (le_n _))
    as (Hs & Ht & Hi).
  repeat split; try assumption.
  destruct (skip_space_and_comments s) as [|ch rest] eqn:E; [exact I|].
  now apply (skip_space_and_comments_head s ch rest).
Qed.

(** X11. When [read_symbol] finds a symbol, the text from the first
    character that is neither whitespace nor comment is that symbol
    followed by the returned rest; the symbol is not empty, holds symbol
    characters only, and is as long as it can be. When it finds none, the
    returned rest is the text from that first character on. *)
Theorem read_symbol_splits_the_text (s : string) :
  match read_symbol s with
  | (Some symbol, after) =>
      skip_space_and_comments s = (symbol ++ after)%string
      /\ symbol <> EmptyString
      /\ all_chars symbol_char symbol = true
      /\ match after with
         | EmptyString => True
         | String ch _ => symbol_char ch = false
         end
  | (None, after) => after = skip_space_and_comments s
  end.
Proof.
  destruct (read_symbol s) as [[symbol|] after] eqn:E.
  - pose proof (read_symbol_truthy s symbol after E) as Ht.
    unfold read_symbol in E.
    destruct (skip_space_and_comments s) as [|ch rest]; [discriminate|].
    destruct (delimiter_or_quote ch); [discriminate|].
    pose proof (read_token_spec (String ch rest)) as Hspec.
    destruct (read_token (String ch rest)) as [tok aft].
    injection E as <- <-. destruct Hspec as (Hs & Ha & Hafter).
    repeat split; try assumption. intros ->. discriminate.
  - unfold read_symbol in E.
    destruct (skip_space_and_comments s) as [|ch rest].
    + now injection E as <-.
    + destruct (delimiter_or_quote ch).
      * now injection E as <-.
      * destruct (read_token (String ch rest)). discriminate.
Qed.

(** ** File discovery and the command line *)

Section Discovery.

Variable fs : FileSystem.
Variable to_path : string -> Path.
Variable extension_order : list string.

Lemma gather_files_from_acc (paths : list string) :
  forall files missing,
    gather_files_from fs to_path extension_order files missing paths
    = (files ++ fst (gather_files fs to_path extension_order paths),
       missing ++ snd (gather_files fs to_path extension_order paths)).
Proof.
  unfold gather_files.
  induction paths as [|raw more IH]; intros files missing.
  - simpl. now rewrite !app_nil_r.
  - simpl.
    destruct (path_exists fs (to_path raw)); simpl.
    + destruct (is_dir fs (to_path raw)).
      * rewrite (IH (files ++ _)), (IH (expand_directory _ _ _)).
        simpl. now rewrite app_assoc.
      * rewrite (IH (files ++ _)), (IH [to_path raw]).
        simpl. now rewrite <- app_assoc.
    + rewrite (IH files (missing ++ _)), (IH [] [raw]).
      simpl. now rewrite <- app_assoc.
Qed.

(** X12. The arguments are handled one by one and independently: the
    result for a list of arguments followed by another is the files of
    the first followed by the files of the second, and likewise for the
    missing names. *)
Theorem gather_files_app (paths1 paths2 : list string) :
  gather_files fs to_path extension_order (paths1 ++ paths2)
  = (fst (gather_files fs to_path extension_order paths1)
       ++ fst (gather_files fs to_path extension_order paths2),
     snd (gather_files fs to_path extension_order paths1)
       ++ snd (gather_files fs to_path extension_order paths2)).
Proof.
  induction paths1 as [|raw more IH].
  - simpl. now destruct (gather_files fs to_path extension_order paths2).
  - unfold gather_files in *. simpl.
    destruct (path_exists fs (to_path raw)); simpl;
      [destruct (is_dir fs (to_path raw))|];
      rewrite gather_files_from_acc;
      rewrite (gather_files_from_acc more);
      unfold gather_files; rewrite IH; simpl;
      now rewrite ?app_assoc.
Qed.

(** X13. The missing names are exactly the arguments whose path does not
    exist, in the order of the arguments, each as often as it was
    given. *)
Theorem gather_files_missing (paths : list string) :
  snd (gather_files fs to_path extension_order paths)
  = filter (fun raw => negb (path_exists fs (to_path raw))) paths.
Proof.
  induction paths as [|raw more IH]; [reflexivity|].
  unfold gather_files in *. simpl.
  destruct (path_exists fs (to_path raw)); simpl;
    [destruct (is_dir fs (to_path raw))|];
    rewrite gather_files_from_acc; simpl; unfold gather_files;
    now rewrite IH.
Qed.

(** X14. Every path returned as a file is either the path of an argument
    that exists and is not a directory, or a plain file that the
    recursive search of a directory argument found under one of the
    extensions. Nothing else is ever returned. *)
Theorem gather_files_origin (paths : list string) (f : Path) :
  In f (fst (gather_files fs to_path extension_order paths)) ->
  (exists raw, In raw paths /\ f = to_path raw
               /\ path_exists fs f = true /\ is_dir fs f = false)
  \/ (exists raw ext,
        In raw paths /\ In ext extension_order
        /\ path_exists fs (to_path raw) = true
        /\ is_dir fs (to_path raw) = true
        /\ In f (rglob fs (to_path raw) ext)
        /\ is_file fs f = true).
Proof.
  induction paths as [|raw more IH]; [intros []|].
  unfold gather_files in *. simpl.
  assert (Hmore :
            In f (fst (gather_files_from fs to_path extension_order [] []
                         more)) ->
            (exists raw0, In raw0 (raw :: more) /\ f = to_path raw0
                          /\ path_exists fs f = true /\ is_dir fs f = false)
            \/ (exists raw0 ext,
                  In raw0 (raw :: more) /\ In ext extension_order
                  /\ path_exists fs (to_path raw0) = true
                  /\ is_dir fs (to_path raw0) = true
                  /\ In f (rglob fs (to_path raw0) ext)
                  /\ is_file fs f = true)).
  { intros H. destruct (IH H) as [(r & Hin & Hrest)|(r & ext & Hin & Hrest)].
    - left. exists r. split; [now right|assumption].
    - right. exists r, ext. split; [now right|assumption]. }
  destruct (path_exists fs (to_path raw)) eqn:Hex; simpl.
  - destruct (is_dir fs (to_path raw)) eqn:Hdir;
      rewrite gather_files_from_acc; simpl; intros H.
    + apply in_app_or in H as [H|H]; [|now apply Hmore].
      right. unfold expand_directory in H.
      apply in_flat_map in H as (ext & Hext & H).
      apply filter_In in H as [H Hfile].
      exists raw, ext. repeat split; try assumption; [now left|].
      clear -H. induction (rglob fs (to_path raw) ext) as [|q l IHl];
        [exact H|].
      simpl in H.
      assert (Hins : forall p l', In f (insert_sorted p l') ->
                                  f = p \/ In f l').
      { clear. intros p l'. induction l' as [|q' l' IH']; simpl.
        - intros [<-|[]]. now left.
        - destruct (path_leb p q').
          + intros [<-|H]; [now left|now right].
          + intros [<-|H]; [right; now left|].
            destruct (IH' H) as [->|H']; [now left|right; now right]. }
      destruct (Hins _ _ H) as [->|H']; [now left|right; now apply IHl].
    + destruct H as [<-|H]; [|now apply Hmore].
      left. exists raw. repeat split; try assumption. now left.
  - rewrite gather_files_from_acc. simpl. exact Hmore.
Qed.

End Discovery.

Lemma gather_files_origin_witness :
  (exists raw, In raw ["src"] /\ ["src"; "b.clj"] = single_part raw
               /\ path_exists (directory_of ["b.clj"; "a.cljs"])
                    ["src"; "b.clj"] = true
               /\ is_dir (directory_of ["b.clj"; "a.cljs"])
                    ["src"; "b.clj"] = false)
  \/ (exists raw ext,
        In raw ["src"] /\ In ext [".clj"; ".cljc"; ".cljs"]
        /\ path_exists (directory_of ["b.clj"; "a.cljs"]) (single_part raw)
           = true
        /\ is_dir (directory_of ["b.clj"; "a.cljs"]) (single_part raw) = true
        /\ In ["src"; "b.clj"]
              (rglob (directory_of ["b.clj"; "a.cljs"]) (single_part raw) ext)
        /\ is_file (directory_of ["b.clj"; "a.cljs"]) ["src"; "b.clj"]
           = true).
Proof.
  apply (gather_files_origin (directory_of ["b.clj"; "a.cljs"]) single_part
           [".clj"; ".cljc"; ".cljs"] ["src"] ["src"; "b.clj"]).
  vm_compute. left. reflexivity.
Defined.

Section Running.

Variable fs : FileSystem.
Variable to_path : string -> Path.
Variable extension_order : list string.
Variable path_str : Path -> string.
Variable read_text : Path -> ReadResult.





End Running.

(** ** What the expansion of a directory does keep in order *)

Lemma compare_lt_trans (x y z : string) :
  String.compare x y = Lt -> String.compare y z = Lt ->
  String.compare x z = Lt.
Proof.
  intros H1 H2. apply String_as_OT.cmp_lt.
  apply String_as_OT.cmp_lt in H1, H2.
  exact (String_as_OT.lt_trans _ _ _ H1 H2).
Qed.

Lemma path_leb_trans (p : Path) :
  forall q r, path_leb p q = true -> path_leb q r = true ->
              path_leb p r = true.
Proof.
  induction p as [|a p IH]; intros [|b q] [|c r]; simpl; try discriminate;
    try reflexivity.
  destruct (String.compare a b) eqn:Eab; try discriminate;
    destruct (String.compare b c) eqn:Ebc; try discriminate; intros H1 H2.
  - apply String.compare_eq_iff in Eab, Ebc. subst b c.
    replace (String.compare a a) with Eq
      by (symmetry; now apply String_as_OT.cmp_eq).
    now apply (IH q r).
  - apply String.compare_eq_iff in Eab. subst b. now rewrite Ebc.
  - apply String.compare_eq_iff in Ebc. subst c. now rewrite Eab.
  - now rewrite (compare_lt_trans a b c).
Qed.

Lemma in_path_order_cons (p : Path) (l : list Path) :
  in_path_order (p :: l) = true <->
  Forall (fun q => path_leb p q = true) l /\ in_path_order l = true.
Proof.
  revert p. induction l as [|q l IH]; intros p.
  - simpl. split; [now split|reflexivity].
  - change (in_path_order (p :: q :: l))
      with (path_leb p q && in_path_order (q :: l)).
    rewrite andb_true_iff. split.
    + intros [Hpq Hl]. split; [|exact Hl].
      constructor; [exact Hpq|].
      apply IH in Hl as [Hq _].
      eapply Forall_impl; [|exact Hq].
      intros r Hr. now apply (path_leb_trans p q r).
    + intros [Hall Hl]. split; [|exact Hl]. now inversion Hall.
Qed.

Lemma filter_in_path_order (keep : Path -> bool) (l : list Path) :
  in_path_order l = true -> in_path_order (filter keep l) = true.
Proof.
  induction l as [|p l IH]; intros H; [reflexivity|].
  apply in_path_order_cons in H as [Hall Hl]. simpl.
  destruct (keep p); [|now apply IH].
  apply in_path_order_cons. split; [|now apply IH].
  clear -Hall. induction Hall as [|q l Hq _ IHl]; simpl; [constructor|].
  destruct (keep q); [now constructor|exact IHl].
Qed.

Lemma in_insert_sorted (f p : Path) (l : list Path) :
  In f (insert_sorted p l) <-> f = p \/ In f l.
Proof.
  induction l as [|q l IH]; simpl.
  - split; [intros [<-|[]]; now left|intros [->|[]]; now left].
  - destruct (path_leb p q); simpl; [intuition congruence|].
    rewrite IH. intuition congruence.
Qed.

Lemma in_sorted (f : Path) (l : list Path) : In f (sorted l) <-> In f l.
Proof.
  induction l as [|p l IH]; [reflexivity|].
  simpl. rewrite in_insert_sorted, IH. intuition congruence.
Qed.

(** X17. The expansion of a directory is the concatenation, extension by
    extension in the order the set is visited, of groups that are each in
    lexicographic order and hold exactly the plain files the recursive
    search found under that extension. With a single extension the whole
    expansion is in lexicographic order. *)
Theorem expand_directory_sorted_by_group
    (fs : FileSystem) (extension_order : list string) (p : Path) :
  let group ext := filter (is_file fs) (sorted (rglob fs p ext)) in
  expand_directory fs extension_order p
  = concat (map group extension_order)
  /\ Forall (fun ext =>
               in_path_order (group ext) = true
               /\ forall f, In f (group ext) <->
                            In f (rglob fs p ext) /\ is_file fs f = true)
            extension_order
  /\ (forall ext, in_path_order (expand_directory fs [ext] p) = true).
Proof.
  intros group.
  assert (Hg : forall ext, in_path_order (group ext) = true).
  { intros ext. apply filter_in_path_order, sorted_in_order. }
  repeat split.
  - unfold expand_directory. apply flat_map_concat_map.
  - apply Forall_forall. intros ext _. split; [apply Hg|].
    intros f. unfold group. rewrite filter_In, in_sorted. reflexivity.
  - intros ext. unfold expand_directory. simpl. rewrite app_nil_r.
    apply Hg.
Qed.
